(** * sync_prim::upgrade_mutex — an upgradeable reader/writer mutex

    Shallow embedding of [include/sync_prim/upgrade_mutex.hpp].

    Definitions:

    - [upgrade_mutex]: the packed 32-bit state word, the atomic operations
      on it, and every member function written as its C++ body reads, in
      a small state monad whose result is either [Returned] or [Blocked]
      (the call is suspended on the internal mutex or on one of the two
      condition variables);
    - [guards]: the RAII lock guards ([lock_guard_base], [unique_lock],
      [shared_lock], [upgrade_lock], [scoped_upgrade]) over a heap of
      mutexes;
    - [sched]: an interleaving semantics in which every atomic operation
      of every member function is one step of one agent, with
      condition-variable sleeping and wake-up, built from the same
      atomic operations and the same wait predicates;
    - [sched_inv]: the bookkeeping used to reason about interleavings;
    - [design]: the properties under study, in the design's words;
    - [coverage]: kinds of member functions, the critical section, guard
      programs and further schedules.

    Results: [word_facts] (arithmetic of the state word), [call_facts]
    (single calls), [guard_facts] (guards that own nothing),
    [sched_facts] (invariants of every interleaving, the reader ceiling,
    the wake-up that [unlock_shared] does not send), [wait_facts]
    (waiting in [lock] and [upgrade_to_unique]), [call_more] (round
    trips, blocking), [sched_more] (who holds what, who is woken),
    [window_facts] (what happens between a load and its
    compare-exchange) and [guard_more] (scopes and transitions of the
    guards). *)

From Stdlib Require Import ZArith Lia Bool List.
From stdpp Require Import base list gmap.

Local Open Scope Z_scope.

(* ===================================================================== *)
(** ** The state word and the methods of [upgrade_mutex]                 *)
(* ===================================================================== *)

Module upgrade_mutex.

(** [uint32_t] arithmetic: every result is reduced modulo [2^32]. *)
Definition uint32 (z : Z) : Z := z mod 2 ^ 32.

(** State constants (header lines 80-84). *)
Definition WRITE_LOCKED_FLAG : Z := uint32 (Z.shiftl 1 31).
Definition UPGRADE_LOCKED_FLAG : Z := uint32 (Z.shiftl 1 30).
Definition UPGRADE_PENDING_FLAG : Z := uint32 (Z.shiftl 1 29).
Definition READER_COUNT_MASK : Z :=
  uint32 (Z.lnot (Z.lor (Z.lor WRITE_LOCKED_FLAG UPGRADE_LOCKED_FLAG)
                        UPGRADE_PENDING_FLAG)).
Definition ONE_READER : Z := uint32 1.

(** The four logical fields of a state word. *)
Definition WRITER (s : Z) : bool := negb (Z.land s WRITE_LOCKED_FLAG =? 0).
Definition UPGRADER (s : Z) : bool := negb (Z.land s UPGRADE_LOCKED_FLAG =? 0).
Definition PENDING (s : Z) : bool := negb (Z.land s UPGRADE_PENDING_FLAG =? 0).
Definition READERS (s : Z) : Z := Z.land s READER_COUNT_MASK.

(** The two condition variables, and the notifications sent on them. *)
Inductive gate : Set := gate1_ | gate2_.

Inductive notification : Set :=
| notify_one (g : gate)
| notify_all (g : gate).

(** The data members of the class.  [notified] is the history of the
    notifications issued so far, oldest first; it is what an observer of
    the two condition variables sees. *)
Record t : Set := mk {
  state_ : Z;
  internal_mutex_ : bool;
  notified : list notification
}.

(** [upgrade_mutex() : state_(0) {}] *)
Definition init : t :=
  {| state_ := 0; internal_mutex_ := false; notified := [] |}.

Definition with_state (v : Z) (m : t) : t :=
  {| state_ := v; internal_mutex_ := internal_mutex_ m; notified := notified m |}.

Definition with_internal (b : bool) (m : t) : t :=
  {| state_ := state_ m; internal_mutex_ := b; notified := notified m |}.

Definition with_notified (n : notification) (m : t) : t :=
  {| state_ := state_ m; internal_mutex_ := internal_mutex_ m;
     notified := notified m ++ [n] |}.

(** Where a suspended call sleeps. *)
Inductive waitpoint : Set :=
| on_internal_mutex
| on_gate (g : gate).

(** A call run without interference from other threads either returns or
    suspends; in both cases the object is left in a definite state. *)
Inductive result (A : Type) : Type :=
| Returned (a : A) (m : t)
| Blocked (w : waitpoint) (m : t).
Arguments Returned {A} a m.
Arguments Blocked {A} w m.

Definition M (A : Type) : Type := t -> result A.

Definition ret {A} (a : A) : M A := fun m => Returned a m.

Definition bind {A B} (c : M A) (k : A -> M B) : M B :=
  fun m => match c m with
           | Returned a m' => k a m'
           | Blocked w m' => Blocked w m'
           end.

Declare Scope mutex_scope.
Delimit Scope mutex_scope with mutex.
Notation "'let*' x ':=' c 'in' k" := (bind c (fun x => k))
  (at level 10, x name, c at level 100, k at level 200) : mutex_scope.
Notation "c1 '>>' c2" := (bind c1 (fun _ => c2))
  (at level 100, c2 at level 200, right associativity) : mutex_scope.
Local Open Scope mutex_scope.

(** *** [std::atomic<uint32_t>] *)

Definition load : M Z := fun m => Returned (state_ m) m.

Definition store (v : Z) : M unit := fun m => Returned tt (with_state v m).

Definition fetch_sub (v : Z) : M Z :=
  fun m => Returned (state_ m) (with_state (uint32 (state_ m - v)) m).

Definition fetch_or (v : Z) : M Z :=
  fun m => Returned (state_ m) (with_state (Z.lor (state_ m) v) m).

Definition compare_exchange_strong (expected desired : Z) : M bool :=
  fun m => if state_ m =? expected
           then Returned true (with_state desired m)
           else Returned false m.

(** *** [std::mutex internal_mutex_] and the condition variables *)

(** [std::unique_lock<std::mutex> internal_lock(internal_mutex_)] *)
Definition internal_lock : M unit :=
  fun m => if internal_mutex_ m
           then Blocked on_internal_mutex m
           else Returned tt (with_internal true m).

(** The destructor of [internal_lock]. *)
Definition internal_unlock : M unit :=
  fun m => Returned tt (with_internal false m).

Definition notify (n : notification) : M unit :=
  fun m => Returned tt (with_notified n m).

(** [gate.wait(internal_lock, pred)], that is
    [while (!pred()) gate.wait(internal_lock);].  When the predicate is
    false the caller releases the internal mutex and sleeps on the gate;
    nothing else runs in this layer, so it stays there. *)
Definition wait (g : gate) (pred : M bool) : M unit :=
  fun m => match pred m with
           | Returned true m' => Returned tt m'
           | Returned false m' => Blocked (on_gate g) (with_internal false m')
           | Blocked w m' => Blocked w m'
           end.

(** *** Exclusive locking (lines 261-285) *)

Definition lock_cond (current_state : Z) : bool := current_state =? 0.
Definition lock_new_state (current_state : Z) : Z := WRITE_LOCKED_FLAG.

Definition lock_pred : M bool :=
  let* current_state := load in
  if lock_cond current_state
  then compare_exchange_strong current_state (lock_new_state current_state)
  else ret false.

Definition lock : M unit :=
  internal_lock >>
  wait gate2_ lock_pred >>
  internal_unlock.

Definition unlock : M unit :=
  let* _ := fetch_sub WRITE_LOCKED_FLAG in
  notify (notify_one gate2_) >>
  notify (notify_all gate1_).

(** *** Shared locking (lines 287-310) *)

Definition lock_shared_cond (current_state : Z) : bool :=
  (Z.land current_state WRITE_LOCKED_FLAG =? 0)
  && (Z.land current_state UPGRADE_PENDING_FLAG =? 0).
Definition lock_shared_new_state (current_state : Z) : Z :=
  uint32 (current_state + ONE_READER).

Definition lock_shared_pred : M bool :=
  let* current_state := load in
  if lock_shared_cond current_state
  then compare_exchange_strong current_state (lock_shared_new_state current_state)
  else ret false.

Definition lock_shared : M unit :=
  internal_lock >>
  wait gate1_ lock_shared_pred >>
  internal_unlock.

Definition unlock_shared_notifies (old_state : Z) : bool :=
  (Z.land old_state READER_COUNT_MASK =? ONE_READER)
  && (Z.land old_state UPGRADE_LOCKED_FLAG =? 0).

Definition unlock_shared : M unit :=
  let* old_state := fetch_sub ONE_READER in
  if unlock_shared_notifies old_state
  then notify (notify_one gate2_)
  else ret tt.

(** *** Upgradeable locking (lines 312-340) *)

Definition lock_upgrade_cond (current_state : Z) : bool :=
  (Z.land current_state WRITE_LOCKED_FLAG =? 0)
  && (Z.land current_state UPGRADE_LOCKED_FLAG =? 0).
Definition lock_upgrade_new_state (current_state : Z) : Z :=
  Z.lor current_state UPGRADE_LOCKED_FLAG.

Definition lock_upgrade_pred : M bool :=
  let* current_state := load in
  if lock_upgrade_cond current_state
  then compare_exchange_strong current_state (lock_upgrade_new_state current_state)
  else ret false.

Definition lock_upgrade : M unit :=
  internal_lock >>
  wait gate1_ lock_upgrade_pred >>
  internal_unlock.

Definition unlock_upgrade_notifies (old_state : Z) : bool :=
  Z.land old_state READER_COUNT_MASK =? 0.

Definition unlock_upgrade : M unit :=
  let* old_state := fetch_sub UPGRADE_LOCKED_FLAG in
  (if unlock_upgrade_notifies old_state
   then notify (notify_one gate2_)
   else ret tt) >>
  notify (notify_all gate1_).

(** *** Internal transitions (lines 344-384) *)

Definition readers_drained (current_state : Z) : bool :=
  Z.land current_state READER_COUNT_MASK =? 0.

Definition upgrade_to_unique_pred : M bool :=
  let* current_state := load in
  ret (readers_drained current_state).

Definition upgrade_to_unique : M unit :=
  internal_lock >>
  (let* _ := fetch_or UPGRADE_PENDING_FLAG in
   wait gate2_ upgrade_to_unique_pred >>
   store WRITE_LOCKED_FLAG >>
   internal_unlock).

Definition unique_to_upgrade : M unit :=
  store UPGRADE_LOCKED_FLAG >>
  notify (notify_all gate1_).

Definition unique_to_shared : M unit :=
  store ONE_READER >>
  notify (notify_all gate1_).

Definition scoped_upgrade_entry : M unit := upgrade_to_unique.

Definition scoped_upgrade_exit : M unit := unique_to_upgrade.

(** The member functions by name. *)
Inductive method : Set :=
| Lock | Unlock
| Lock_shared | Unlock_shared
| Lock_upgrade | Unlock_upgrade
| Upgrade_to_unique | Unique_to_upgrade | Unique_to_shared
| Scoped_upgrade_entry | Scoped_upgrade_exit.

Definition body (f : method) : M unit :=
  match f with
  | Lock => lock
  | Unlock => unlock
  | Lock_shared => lock_shared
  | Unlock_shared => unlock_shared
  | Lock_upgrade => lock_upgrade
  | Unlock_upgrade => unlock_upgrade
  | Upgrade_to_unique => upgrade_to_unique
  | Unique_to_upgrade => unique_to_upgrade
  | Unique_to_shared => unique_to_shared
  | Scoped_upgrade_entry => scoped_upgrade_entry
  | Scoped_upgrade_exit => scoped_upgrade_exit
  end.

(** Calls in sequence on one object by one thread: a call that suspends
    stops the sequence there. *)
Fixpoint calls (fs : list method) : M unit :=
  match fs with
  | [] => ret tt
  | f :: fs' => body f >> calls fs'
  end.

End upgrade_mutex.

(* ===================================================================== *)
(** ** The RAII lock guards                                              *)
(* ===================================================================== *)

Module guards.
Import upgrade_mutex.

(** Mutexes live in a heap and are referred to by address; [called]
    records every member function invoked on any mutex, oldest first. *)
Record world : Type := mk_world {
  heap : gmap nat upgrade_mutex.t;
  called : list (nat * method)
}.

(** A guard operation completes, suspends inside a blocking call, or
    dereferences an address at which no mutex lives. *)
Inductive outcome (A : Type) : Type :=
| Done (a : A) (w : world)
| Suspended (wp : waitpoint) (w : world)
| Dangling.
Arguments Done {A} a w.
Arguments Suspended {A} wp w.
Arguments Dangling {A}.

(** [p->f()] *)
Definition invoke (p : nat) (f : method) (w : world) : outcome unit :=
  match heap w !! p with
  | None => Dangling
  | Some m =>
      match body f m with
      | Returned _ m' =>
          Done tt {| heap := <[p := m']> (heap w); called := called w ++ [(p, f)] |}
      | Blocked wp m' =>
          Suspended wp {| heap := <[p := m']> (heap w); called := called w ++ [(p, f)] |}
      end
  end.

(** [template <typename Mutex> class lock_guard_base]: the only data
    member is the pointer [p_mutex_], null when the guard owns nothing. *)
Record lock_guard_base : Set := { p_mutex_ : option nat }.

Definition owns_lock (g : lock_guard_base) : bool :=
  match p_mutex_ g with Some _ => true | None => false end.

Definition release (g : lock_guard_base) : lock_guard_base :=
  {| p_mutex_ := None |}.

Definition mutex (g : lock_guard_base) : option nat := p_mutex_ g.

(** [lock_guard_base() noexcept : p_mutex_(nullptr) {}] *)
Definition default_ctor : lock_guard_base := {| p_mutex_ := None |}.

(** [explicit lock_guard_base(Mutex &m)] *)
Definition ref_ctor (m : nat) : lock_guard_base := {| p_mutex_ := Some m |}.

(** [lock_guard_base(lock_guard_base &&other)]: the new guard and what
    is left of [other]. *)
Definition move_ctor (other : lock_guard_base) : lock_guard_base * lock_guard_base :=
  ({| p_mutex_ := p_mutex_ other |}, {| p_mutex_ := None |}).

(** [operator=(lock_guard_base &&other)] with [this != &other]. *)
Definition move_assign (this other : lock_guard_base) : lock_guard_base * lock_guard_base :=
  ({| p_mutex_ := p_mutex_ other |}, {| p_mutex_ := None |}).

(** [if (p_mutex_) p_mutex_->f();] *)
Definition invoke_if_owned (g : lock_guard_base) (f : method) (w : world) : outcome unit :=
  match p_mutex_ g with
  | Some p => invoke p f w
  | None => Done tt w
  end.

Definition construct_on (m : nat) (f : method) (w : world) : outcome lock_guard_base :=
  match invoke m f w with
  | Done _ w' => Done (ref_ctor m) w'
  | Suspended wp w' => Suspended wp w'
  | Dangling => Dangling
  end.

Definition transfer (other : lock_guard_base) (f : method) (w : world)
  : outcome (lock_guard_base * lock_guard_base) :=
  let '(this, other') := move_ctor other in
  match invoke_if_owned this f w with
  | Done _ w' => Done (this, other') w'
  | Suspended wp w' => Suspended wp w'
  | Dangling => Dangling
  end.

(** [unique_lock<upgrade_mutex>] *)
Definition unique_lock_ctor (m : nat) := construct_on m Lock.
Definition unique_lock_dtor (g : lock_guard_base) := invoke_if_owned g Unlock.
Definition unique_lock_from_upgrade (other : lock_guard_base) :=
  transfer other Upgrade_to_unique.

(** [shared_lock<upgrade_mutex>] *)
Definition shared_lock_ctor (m : nat) := construct_on m Lock_shared.
Definition shared_lock_dtor (g : lock_guard_base) := invoke_if_owned g Unlock_shared.
Definition shared_lock_from_unique (other : lock_guard_base) :=
  transfer other Unique_to_shared.

(** [upgrade_lock<upgrade_mutex>] *)
Definition upgrade_lock_ctor (m : nat) := construct_on m Lock_upgrade.
Definition upgrade_lock_dtor (g : lock_guard_base) := invoke_if_owned g Unlock_upgrade.
Definition upgrade_lock_from_unique (other : lock_guard_base) :=
  transfer other Unique_to_upgrade.

(** [scoped_upgrade<upgrade_mutex>]: it copies the pointer of the
    [upgrade_lock] it is given. *)
Record scoped_upgrade : Set := { su_p_mutex_ : option nat }.

Definition scoped_upgrade_ctor (lock : lock_guard_base) (w : world)
  : outcome scoped_upgrade :=
  let this := {| su_p_mutex_ := mutex lock |} in
  match su_p_mutex_ this with
  | Some p =>
      match invoke p Scoped_upgrade_entry w with
      | Done _ w' => Done this w'
      | Suspended wp w' => Suspended wp w'
      | Dangling => Dangling
      end
  | None => Done this w
  end.

Definition scoped_upgrade_dtor (this : scoped_upgrade) (w : world) : outcome unit :=
  match su_p_mutex_ this with
  | Some p => invoke p Scoped_upgrade_exit w
  | None => Done tt w
  end.

(** The three ways in which a guard comes to hold no mutex. *)
Inductive holds_nothing : lock_guard_base -> Prop :=
| default_constructed : holds_nothing default_ctor
| moved_from (other : lock_guard_base) : holds_nothing (snd (move_ctor other))
| move_assigned_from (this other : lock_guard_base) :
    holds_nothing (snd (move_assign this other))
| released (g : lock_guard_base) : holds_nothing (release g).

End guards.

(* ===================================================================== *)
(** ** Interleaved execution                                             *)
(* ===================================================================== *)

Module sched.
Import upgrade_mutex.

(** Threads interleave at the granularity of the atomic operations of
    the source: one [load], [fetch_sub], [fetch_or], [store] or
    [compare_exchange_strong] on [state_], one acquisition or release of
    [internal_mutex_], one notification, or entering a condition-variable
    wait (which releases the internal mutex and suspends in one step).
    Every operation acts on the current value of [state_].  A
    notification reaches only agents that are asleep on its gate when it
    is sent. *)

(** What an agent currently owns of the mutex.  An agent stands for one
    acquisition: a thread that holds two shared locks at once is two
    agents. *)
Inductive hold : Set := no_hold | shared_hold | upgrade_hold | exclusive_hold.

(** The four blocking member functions. *)
Inductive acquirer : Set :=
| acq_lock | acq_lock_shared | acq_lock_upgrade | acq_upgrade_to_unique.

(** The three releases, which start with a [fetch_sub]. *)
Inductive releaser : Set := rel_unlock | rel_unlock_shared | rel_unlock_upgrade.

(** The two downgrades, which start with a [store]. *)
Inductive downgrade : Set := dg_unique_to_upgrade | dg_unique_to_shared.

(** Program points: the next atomic operation the agent will perform. *)
Inductive pc : Set :=
| idle                                   (* not inside a call *)
| at_internal_lock (a : acquirer)        (* lines 263, 289, 314, 346 *)
| at_fetch_or                            (* line 348 *)
| at_pred (a : acquirer)                 (* the load of lines 267, 292, 317, 352 *)
| at_cas (a : acquirer) (current_state : Z)   (* lines 270, 297, 321 *)
| at_wait (a : acquirer)                 (* predicate false: gate.wait(internal_lock) *)
| asleep (a : acquirer)                  (* suspended, internal mutex released *)
| at_relock (a : acquirer)               (* woken: wait() takes the internal mutex again *)
| at_store_writer                        (* line 355 *)
| at_internal_unlock                     (* end of scope of internal_lock *)
| at_fetch_sub (r : releaser)            (* lines 278, 304, 328 *)
| at_store (d : downgrade)               (* lines 361, 369 *)
| at_notify (ns : list notification).    (* lines 281-284, 308, 334-339, 363, 371 *)

Record agent : Set := mk_agent { pc_ : pc; held : hold }.

Record config : Set := mk_config { mtx : upgrade_mutex.t; agents : list agent }.

Definition initial (n : nat) : config :=
  {| mtx := upgrade_mutex.init; agents := replicate n (mk_agent idle no_hold) |}.

Definition gate_eqb (g h : gate) : bool :=
  match g, h with
  | gate1_, gate1_ | gate2_, gate2_ => true
  | _, _ => false
  end.

(** The gate each blocking function waits on. *)
Definition gate_of (a : acquirer) : gate :=
  match a with
  | acq_lock | acq_upgrade_to_unique => gate2_
  | acq_lock_shared | acq_lock_upgrade => gate1_
  end.

(** The test each wait predicate applies to the word it loaded. *)
Definition acq_cond (a : acquirer) : Z -> bool :=
  match a with
  | acq_lock => lock_cond
  | acq_lock_shared => lock_shared_cond
  | acq_lock_upgrade => lock_upgrade_cond
  | acq_upgrade_to_unique => readers_drained
  end.

(** The word the predicate tries to install with its compare-and-swap
    ([upgrade_to_unique] has none: it stores after the wait). *)
Definition acq_new_state (a : acquirer) : Z -> Z :=
  match a with
  | acq_lock => lock_new_state
  | acq_lock_shared => lock_shared_new_state
  | acq_lock_upgrade => lock_upgrade_new_state
  | acq_upgrade_to_unique => fun _ => WRITE_LOCKED_FLAG
  end.

Definition acq_hold (a : acquirer) : hold :=
  match a with
  | acq_lock | acq_upgrade_to_unique => exclusive_hold
  | acq_lock_shared => shared_hold
  | acq_lock_upgrade => upgrade_hold
  end.

Definition rel_flag (r : releaser) : Z :=
  match r with
  | rel_unlock => WRITE_LOCKED_FLAG
  | rel_unlock_shared => ONE_READER
  | rel_unlock_upgrade => UPGRADE_LOCKED_FLAG
  end.

(** The notifications a release issues after its [fetch_sub] returned
    [old_state], in program order. *)
Definition rel_notifications (r : releaser) (old_state : Z) : list notification :=
  match r with
  | rel_unlock => [notify_one gate2_; notify_all gate1_]
  | rel_unlock_shared =>
      if unlock_shared_notifies old_state then [notify_one gate2_] else []
  | rel_unlock_upgrade =>
      (if unlock_upgrade_notifies old_state then [notify_one gate2_] else [])
      ++ [notify_all gate1_]
  end.

Definition dg_value (d : downgrade) : Z :=
  match d with
  | dg_unique_to_upgrade => UPGRADE_LOCKED_FLAG
  | dg_unique_to_shared => ONE_READER
  end.

Definition dg_hold (d : downgrade) : hold :=
  match d with
  | dg_unique_to_upgrade => upgrade_hold
  | dg_unique_to_shared => shared_hold
  end.

(** First program point of each member function. *)
Definition entry (f : method) : pc :=
  match f with
  | Lock => at_internal_lock acq_lock
  | Lock_shared => at_internal_lock acq_lock_shared
  | Lock_upgrade => at_internal_lock acq_lock_upgrade
  | Upgrade_to_unique | Scoped_upgrade_entry => at_internal_lock acq_upgrade_to_unique
  | Unlock => at_fetch_sub rel_unlock
  | Unlock_shared => at_fetch_sub rel_unlock_shared
  | Unlock_upgrade => at_fetch_sub rel_unlock_upgrade
  | Unique_to_upgrade | Scoped_upgrade_exit => at_store dg_unique_to_upgrade
  | Unique_to_shared => at_store dg_unique_to_shared
  end.

(** Ownership preconditions: an acquisition is called by an agent that
    holds nothing, a release or transition by the holder of its
    from-state. *)
Definition may_call (h : hold) (f : method) : bool :=
  match f, h with
  | (Lock | Lock_shared | Lock_upgrade), no_hold => true
  | Unlock_shared, shared_hold => true
  | (Unlock_upgrade | Upgrade_to_unique | Scoped_upgrade_entry), upgrade_hold => true
  | (Unlock | Unique_to_upgrade | Unique_to_shared | Scoped_upgrade_exit),
    exclusive_hold => true
  | _, _ => false
  end.

(** Program point after the remaining notifications [ns]. *)
Definition resume (ns : list notification) : pc :=
  match ns with
  | [] => idle
  | _ :: _ => at_notify ns
  end.

Definition sleeping_on (g : gate) (ag : agent) : bool :=
  match pc_ ag with
  | asleep a => gate_eqb (gate_of a) g
  | _ => false
  end.

(** A sleeper that is woken must take the internal mutex again before
    it re-evaluates its predicate. *)
Definition wake (g : gate) (ag : agent) : agent :=
  match pc_ ag with
  | asleep a =>
      if gate_eqb (gate_of a) g then mk_agent (at_relock a) (held ag) else ag
  | _ => ag
  end.

(** What the scheduler may do next: let agent [i] call a member
    function, let agent [i] perform its next atomic operation (when this
    is a [notify_one] and somebody sleeps on the gate, [j] is the
    sleeper that receives it), or wake sleeper [i] spuriously. *)
Inductive action : Set :=
| Call (i : nat) (f : method)
| Run (i : nat) (j : nat)
| Spurious (i : nat).

Definition is_spurious (act : action) : bool :=
  match act with Spurious _ => true | _ => false end.

Definition put (i : nat) (p : pc) (h : hold) (m : upgrade_mutex.t) (c : config) : config :=
  {| mtx := m; agents := <[i := mk_agent p h]> (agents c) |}.

Definition deliver (n : notification) (j : nat) (c : config) : option config :=
  match n with
  | notify_all g => Some {| mtx := mtx c; agents := map (wake g) (agents c) |}
  | notify_one g =>
      if existsb (sleeping_on g) (agents c)
      then match agents c !! j with
           | Some w =>
               if sleeping_on g w
               then Some {| mtx := mtx c; agents := <[j := wake g w]> (agents c) |}
               else None
           | None => None
           end
      else Some c
  end.

Definition run_agent (i j : nat) (ag : agent) (c : config) : option config :=
  let m := mtx c in
  let h := held ag in
  match pc_ ag with
  | idle => None
  | at_internal_lock a =>
      match internal_lock m with
      | Returned _ m' =>
          Some (put i (match a with
                       | acq_upgrade_to_unique => at_fetch_or
                       | _ => at_pred a
                       end) h m' c)
      | Blocked _ _ => None
      end
  | at_relock a =>
      match internal_lock m with
      | Returned _ m' => Some (put i (at_pred a) h m' c)
      | Blocked _ _ => None
      end
  | at_fetch_or =>
      match fetch_or UPGRADE_PENDING_FLAG m with
      | Returned _ m' => Some (put i (at_pred acq_upgrade_to_unique) h m' c)
      | Blocked _ _ => None
      end
  | at_pred a =>
      match load m with
      | Returned current_state m' =>
          if acq_cond a current_state
          then Some (put i (match a with
                            | acq_upgrade_to_unique => at_store_writer
                            | _ => at_cas a current_state
                            end) h m' c)
          else Some (put i (at_wait a) h m' c)
      | Blocked _ _ => None
      end
  | at_cas a current_state =>
      match compare_exchange_strong current_state (acq_new_state a current_state) m with
      | Returned true m' => Some (put i at_internal_unlock (acq_hold a) m' c)
      | Returned false m' => Some (put i (at_wait a) h m' c)
      | Blocked _ _ => None
      end
  | at_wait a => Some (put i (asleep a) h (with_internal false m) c)
  | asleep _ => None
  | at_store_writer =>
      match store WRITE_LOCKED_FLAG m with
      | Returned _ m' => Some (put i at_internal_unlock exclusive_hold m' c)
      | Blocked _ _ => None
      end
  | at_internal_unlock =>
      match internal_unlock m with
      | Returned _ m' => Some (put i idle h m' c)
      | Blocked _ _ => None
      end
  | at_fetch_sub r =>
      match fetch_sub (rel_flag r) m with
      | Returned old_state m' =>
          Some (put i (resume (rel_notifications r old_state)) no_hold m' c)
      | Blocked _ _ => None
      end
  | at_store d =>
      match store (dg_value d) m with
      | Returned _ m' =>
          Some (put i (at_notify [notify_all gate1_]) (dg_hold d) m' c)
      | Blocked _ _ => None
      end
  | at_notify [] => None
  | at_notify (n :: ns) =>
      match notify n m with
      | Returned _ m' => deliver n j (put i (resume ns) h m' c)
      | Blocked _ _ => None
      end
  end.

Definition step (c : config) (act : action) : option config :=
  match act with
  | Call i f =>
      match agents c !! i with
      | Some ag =>
          match pc_ ag with
          | idle =>
              if may_call (held ag) f
              then Some (put i (entry f) (held ag) (mtx c) c)
              else None
          | _ => None
          end
      | None => None
      end
  | Run i j =>
      match agents c !! i with
      | Some ag => run_agent i j ag c
      | None => None
      end
  | Spurious i =>
      match agents c !! i with
      | Some ag =>
          match pc_ ag with
          | asleep a => Some (put i (at_relock a) (held ag) (mtx c) c)
          | _ => None
          end
      | None => None
      end
  end.

(** Running a schedule; [None] when some action is not enabled. *)
Fixpoint exec (sched : list action) (c : config) : option config :=
  match sched with
  | [] => Some c
  | act :: sched' =>
      match step c act with
      | Some c' => exec sched' c'
      | None => None
      end
  end.

(** Agent [0] performs its atomic operations one after the other until
    it cannot move: it is idle again, or asleep. *)
Fixpoint solo (fuel : nat) (c : config) : config :=
  match fuel with
  | O => c
  | S fuel' =>
      match step c (Run 0 0) with
      | Some c' => solo fuel' c'
      | None => c
      end
  end.

(** One agent alone, holding [h], calls [f] on the mutex [m] and runs
    until it cannot move. *)
Definition solo_call (f : method) (h : hold) (m : upgrade_mutex.t) : config :=
  match step {| mtx := m; agents := [mk_agent idle h] |} (Call 0 f) with
  | Some c => solo 8 c
  | None => {| mtx := m; agents := [mk_agent idle h] |}
  end.

(** The number of shared holds outstanding. *)
Definition is_shared (ag : agent) : Z :=
  match held ag with shared_hold => 1 | _ => 0 end.

Definition sumZ {A} (f : A -> Z) (l : list A) : Z :=
  foldr (fun x acc => f x + acc) 0 l.

Definition outstanding_shared (c : config) : Z := sumZ is_shared (agents c).

(** A schedule keeps the reader count within its 29-bit field when every
    configuration it visits has fewer than [2^29] shared holds. *)
Definition readers_in_range (c : config) (sched : list action) : Prop :=
  forall (k : nat) (c' : config),
    exec (take k sched) c = Some c' -> outstanding_shared c' <= READER_COUNT_MASK.

End sched.

(* ===================================================================== *)
(** ** Bookkeeping for the interleaved executions                        *)
(* ===================================================================== *)

Module sched_inv.
Import upgrade_mutex sched.

(** Between its [fetch_or] and its final [store], [upgrade_to_unique]
    is draining readers. *)
Definition draining (p : pc) : bool :=
  match p with
  | at_pred acq_upgrade_to_unique | at_wait acq_upgrade_to_unique
  | asleep acq_upgrade_to_unique | at_relock acq_upgrade_to_unique
  | at_store_writer => true
  | _ => false
  end.

(** What each agent contributes to the state word, by kind. *)
Definition is_exclusive (ag : agent) : Z :=
  match held ag with exclusive_hold => 1 | _ => 0 end.

Definition is_upgrade (ag : agent) : Z :=
  match held ag with
  | upgrade_hold => if draining (pc_ ag) then 0 else 1
  | _ => 0
  end.

Definition is_pending (ag : agent) : Z :=
  match held ag with
  | upgrade_hold => if draining (pc_ ag) then 1 else 0
  | _ => 0
  end.

(** Who owns the internal mutex: the agent about to store the writer
    flag, or an agent elsewhere between [internal_lock] and the release
    of the internal mutex. *)
Definition is_storing (ag : agent) : Z :=
  match pc_ ag with at_store_writer => 1 | _ => 0 end.

Definition is_inside (ag : agent) : Z :=
  match pc_ ag with
  | at_fetch_or | at_pred _ | at_cas _ _ | at_wait _ | at_internal_unlock => 1
  | _ => 0
  end.

Definition count (f : agent -> Z) (c : config) : Z := sumZ f (agents c).

(** What an agent holds at each program point. *)
Definition waiting_hold (a : acquirer) : hold :=
  match a with
  | acq_upgrade_to_unique => upgrade_hold
  | _ => no_hold
  end.

Definition releasing_hold (r : releaser) : hold :=
  match r with
  | rel_unlock => exclusive_hold
  | rel_unlock_shared => shared_hold
  | rel_unlock_upgrade => upgrade_hold
  end.

Definition consistent (ag : agent) : Prop :=
  match pc_ ag with
  | idle | at_internal_unlock | at_notify _ => True
  | at_internal_lock a | at_pred a | at_wait a | asleep a | at_relock a =>
      held ag = waiting_hold a
  | at_cas a current_state =>
      a <> acq_upgrade_to_unique /\ held ag = no_hold
      /\ acq_cond a current_state = true
  | at_fetch_or | at_store_writer => held ag = upgrade_hold
  | at_fetch_sub r => held ag = releasing_hold r
  | at_store _ => held ag = exclusive_hold
  end.

(** The state word is the sum of the agents' contributions; writer and
    upgrader exclude each other and the writer excludes readers; the
    internal mutex is held exactly while one agent is inside; nobody
    reads while the writer flag is about to be stored. *)
Definition balanced (s : Z) (b : bool) (x u p r i t : Z) : Prop :=
  0 <= x /\ 0 <= u /\ 0 <= p /\ 0 <= r /\ 0 <= i /\ 0 <= t
  /\ s = WRITE_LOCKED_FLAG * x + UPGRADE_LOCKED_FLAG * (u + p)
         + UPGRADE_PENDING_FLAG * p + ONE_READER * r
  /\ x + u + p <= 1
  /\ (x = 0 \/ r = 0)
  /\ r <= READER_COUNT_MASK
  /\ i + t = Z.b2z b
  /\ (t = 0 \/ r = 0)
  /\ t <= p.

Definition inv (c : config) : Prop :=
  balanced (state_ (mtx c)) (internal_mutex_ (mtx c))
    (count is_exclusive c) (count is_upgrade c) (count is_pending c)
    (count is_shared c) (count is_inside c) (count is_storing c)
  /\ Forall consistent (agents c).

(** Waking a sleeper changes none of the tallies. *)
Definition wake_blind (f : agent -> Z) : Prop :=
  forall g ag, f (wake g ag) = f ag.

(** One uncontended [lock_shared] by agent [i]. *)
Definition shared_acquisition (i : nat) : list action :=
  [Call i Lock_shared; Run i 0; Run i 0; Run i 0; Run i 0].

(** Agents [0], ..., [k-1] acquire a shared lock one after the other. *)
Fixpoint shared_acquisitions (k : nat) : list action :=
  match k with
  | O => []
  | S k' => shared_acquisitions k' ++ shared_acquisition k'
  end.

(** [n] agents of which the first [k] hold a shared lock. *)
Definition crowd (n k : nat) : config :=
  {| mtx := mk (Z.of_nat k) false [];
     agents := replicate k (mk_agent idle shared_hold)
               ++ replicate (n - k) (mk_agent idle no_hold) |}.

(** Scenario 5 of the design: A takes the upgradeable lock, B a shared
    lock; A starts [upgrade_to_unique] and goes to sleep on [gate2_]; C
    asks for a shared lock and goes to sleep on [gate1_]; B releases. *)
Definition drain_scenario : list action :=
  [ Call 0 Lock_upgrade; Run 0 0; Run 0 0; Run 0 0; Run 0 0;
    Call 1 Lock_shared; Run 1 0; Run 1 0; Run 1 0; Run 1 0;
    Call 0 Upgrade_to_unique; Run 0 0; Run 0 0; Run 0 0; Run 0 0;
    Call 2 Lock_shared; Run 2 0; Run 2 0; Run 2 0;
    Call 1 Unlock_shared; Run 1 0 ].

Definition sleeping_upgrader : agent :=
  mk_agent (asleep acq_upgrade_to_unique) upgrade_hold.

Definition drained : config :=
  {| mtx := mk (UPGRADE_LOCKED_FLAG + UPGRADE_PENDING_FLAG) false [];
     agents := [ sleeping_upgrader;
                 mk_agent idle no_hold;
                 mk_agent (asleep acq_lock_shared) no_hold ] |}.

(** An agent that holds nothing and is idle or on its way into a sleep
    inside [lock], [lock_shared] or [lock_upgrade]. *)
Definition held_back (ag : agent) : Prop :=
  held ag = no_hold
  /\ match pc_ ag with
     | idle => True
     | at_internal_lock a | at_pred a | at_wait a | asleep a =>
         a <> acq_upgrade_to_unique
     | _ => False
     end.

(** The upgrader sleeps, the readers are gone, and everybody else is
    held back. *)
Definition wedged (c : config) : Prop :=
  state_ (mtx c) = UPGRADE_LOCKED_FLAG + UPGRADE_PENDING_FLAG
  /\ notified (mtx c) = []
  /\ exists rest : list agent,
       agents c = sleeping_upgrader :: rest /\ Forall held_back rest.

End sched_inv.

(* ===================================================================== *)
(** ** The properties under study, as the design states them             *)
(* ===================================================================== *)

Module design.
Import upgrade_mutex.

(** The state word a computation leaves behind, whether it returned or
    suspended. *)
Definition state_after {A} (r : result A) : Z :=
  match r with
  | Returned _ m => state_ m
  | Blocked _ m => state_ m
  end.

Definition same_flags (s s' : Z) : Prop :=
  WRITER s' = WRITER s /\ UPGRADER s' = UPGRADER s /\ PENDING s' = PENDING s.

(** The four fields as the data model lists them. *)
Record fields : Set := {
  f_WRITER : bool;
  f_UPGRADER : bool;
  f_PENDING : bool;
  f_READERS : Z
}.

Definition decode (s : Z) : fields :=
  {| f_WRITER := WRITER s; f_UPGRADER := UPGRADER s;
     f_PENDING := PENDING s; f_READERS := READERS s |}.



(** Frame conditions: each mutation changes its own field only. *)
Definition unlock_frame (s : Z) : Prop :=
  forall b ns,
    WRITER s = true ->
    let s' := state_after (unlock (mk s b ns)) in
    s' = s - WRITE_LOCKED_FLAG
    /\ WRITER s' = false /\ UPGRADER s' = UPGRADER s
    /\ PENDING s' = PENDING s /\ READERS s' = READERS s.

Definition unlock_shared_frame (s : Z) : Prop :=
  forall b ns,
    1 <= READERS s ->
    let s' := state_after (unlock_shared (mk s b ns)) in
    s' = s - ONE_READER
    /\ READERS s' = READERS s - 1 /\ same_flags s s'.

Definition unlock_upgrade_frame (s : Z) : Prop :=
  forall b ns,
    UPGRADER s = true ->
    let s' := state_after (unlock_upgrade (mk s b ns)) in
    s' = s - UPGRADE_LOCKED_FLAG
    /\ UPGRADER s' = false /\ WRITER s' = WRITER s
    /\ PENDING s' = PENDING s /\ READERS s' = READERS s.

Definition lock_shared_frame (s : Z) : Prop :=
  forall b ns m',
    lock_shared_pred (mk s b ns) = Returned true m' ->
    READERS (state_ m') = READERS s + 1 /\ same_flags s (state_ m').

(** Invariants P1 and P2 of the state word. *)
Definition P1 (s : Z) : Prop :=
  WRITER s = true -> UPGRADER s = false /\ PENDING s = false /\ READERS s = 0.

Definition P2 (s : Z) : Prop :=
  PENDING s = true -> UPGRADER s = true.

End design.

(* ===================================================================== *)
(** ** Further notions: kinds of member functions, critical section,     *)
(** ** guard programs, one more schedule                                 *)
(* ===================================================================== *)

Module coverage.
Import upgrade_mutex guards sched sched_inv.

(** The releases and downgrades (lines 275-285, 302-310, 326-340,
    358-372, 380-384); the other member functions are the blocking
    acquirers. *)
Definition is_release (f : method) : bool :=
  match f with
  | Unlock | Unlock_shared | Unlock_upgrade
  | Unique_to_upgrade | Unique_to_shared | Scoped_upgrade_exit => true
  | _ => false
  end.

(** What the caller owns once the member function has returned. *)
Definition hold_after (f : method) : hold :=
  match f with
  | Lock | Upgrade_to_unique | Scoped_upgrade_entry => exclusive_hold
  | Lock_shared | Unique_to_shared => shared_hold
  | Lock_upgrade | Unique_to_upgrade | Scoped_upgrade_exit => upgrade_hold
  | Unlock | Unlock_shared | Unlock_upgrade => no_hold
  end.

(** Whether an agent holds the mutex in mode [h], as a number. *)
Definition holding (h : hold) (ag : agent) : Z :=
  match h, held ag with
  | no_hold, no_hold | shared_hold, shared_hold
  | upgrade_hold, upgrade_hold | exclusive_hold, exclusive_hold => 1
  | _, _ => 0
  end.

(** The agent an action belongs to. *)
Definition actor (act : action) : nat :=
  match act with
  | Call i _ | Run i _ | Spurious i => i
  end.

(** The program points at which an agent owns [internal_mutex_]. *)
Definition in_critical_section (p : pc) : bool :=
  match p with
  | at_fetch_or | at_pred _ | at_cas _ _ | at_wait _
  | at_store_writer | at_internal_unlock => true
  | _ => false
  end.

Definition critical (ag : agent) : Z :=
  if in_critical_section (pc_ ag) then 1 else 0.

(** The internal mutex is taken exactly while one agent is in the
    critical section. *)
Definition cs_inv (c : config) : Prop :=
  count critical c = Z.b2z (internal_mutex_ (mtx c)).

(** The program points of a call that has not yet sent its final
    broadcast on [gate1_]: the calls [unlock] and [unlock_upgrade] before
    their [fetch_sub], the two downgrades before their [store], and any
    call whose remaining notifications end with [notify_all gate1_]. *)
Definition will_broadcast (p : pc) : bool :=
  match p with
  | at_fetch_sub rel_unlock | at_fetch_sub rel_unlock_upgrade | at_store _ => true
  | at_notify ns =>
      match last ns with
      | Some (notify_all gate1_) => true
      | _ => false
      end
  | _ => false
  end.

(** Sequencing of guard operations. *)
Definition and_then {A B} (o : outcome A) (k : A -> world -> outcome B) : outcome B :=
  match o with
  | Done a w => k a w
  | Suspended wp w => Suspended wp w
  | Dangling => Dangling
  end.

(** [{ G lock(m); }]: construct a guard on the mutex at [p] and destroy
    it at the end of the scope. *)
Definition scoped (ctor : nat -> world -> outcome lock_guard_base)
    (dtor : lock_guard_base -> world -> outcome unit) (p : nat) (w : world)
  : outcome unit :=
  and_then (ctor p w) dtor.

(** [test_upgrade_downgrade_cycle]: an [upgrade_lock] is moved into a
    [unique_lock], which is moved into an [upgrade_lock] that is
    move-assigned to the first guard; at the end of the scope the two
    named guards are destroyed in reverse order of declaration.  The
    result is the pair of guards as the test's assertions see them. *)
Definition upgrade_downgrade_cycle (p : nat) (w : world)
  : outcome (lock_guard_base * lock_guard_base) :=
  and_then (upgrade_lock_ctor p w) (fun u_lock w =>
  and_then (unique_lock_from_upgrade u_lock w) (fun '(x_lock, u_lock) w =>
  and_then (upgrade_lock_from_unique x_lock w) (fun '(tmp, x_lock) w =>
  let '(u_lock, tmp) := move_assign u_lock tmp in
  and_then (upgrade_lock_dtor tmp w) (fun _ w =>
  and_then (unique_lock_dtor x_lock w) (fun _ w =>
  and_then (upgrade_lock_dtor u_lock w) (fun _ w =>
  Done (u_lock, x_lock) w)))))).

(** [test_downgrade_to_shared]: a [unique_lock] is moved into a
    [shared_lock], a second [shared_lock] is taken, and the three guards
    are destroyed in reverse order of declaration. *)
Definition downgrade_to_shared (p : nat) (w : world) : outcome unit :=
  and_then (unique_lock_ctor p w) (fun x_lock w =>
  and_then (shared_lock_from_unique x_lock w) (fun '(s_lock, x_lock) w =>
  and_then (shared_lock_ctor p w) (fun s_lock2 w =>
  and_then (shared_lock_dtor s_lock2 w) (fun _ w =>
  and_then (shared_lock_dtor s_lock w) (fun _ w =>
  unique_lock_dtor x_lock w))))).

(** [test_scoped_upgrade]: a [scoped_upgrade] lives in an inner scope of
    an [upgrade_lock]. *)
Definition scoped_upgrade_in_scope (p : nat) (w : world) : outcome unit :=
  and_then (upgrade_lock_ctor p w) (fun u_lock w =>
  and_then (scoped_upgrade_ctor u_lock w) (fun s_upgrade w =>
  and_then (scoped_upgrade_dtor s_upgrade w) (fun _ w =>
  upgrade_lock_dtor u_lock w))).

(** A writer releases while a reader is between its predicate and its
    wait: A takes the exclusive lock; B enters [lock_shared], takes the
    internal mutex and finds WRITER set; A runs [unlock] to the end; B
    enters the wait. *)
Definition late_sleeper : list action :=
  [ Call 0 Lock; Run 0 0; Run 0 0; Run 0 0; Run 0 0;
    Call 1 Lock_shared; Run 1 0; Run 1 0;
    Call 0 Unlock; Run 0 0; Run 0 0; Run 0 0;
    Run 1 0 ].

(** A reader loses its compare-exchange to a release: A takes the
    upgradeable lock and B a shared lock; C enters [lock_shared] and
    loads the word; B runs [unlock_shared] to the end; C performs its
    compare-exchange and the step after it. *)
Definition cas_loser_shared : list action :=
  [ Call 0 Lock_upgrade; Run 0 0; Run 0 0; Run 0 0; Run 0 0;
    Call 1 Lock_shared; Run 1 0; Run 1 0; Run 1 0; Run 1 0;
    Call 2 Lock_shared; Run 2 0; Run 2 0;
    Call 1 Unlock_shared; Run 1 0;
    Run 2 0; Run 2 0 ].

(** The same for [lock_upgrade]: A takes a shared lock; B enters
    [lock_upgrade] and loads the word; A runs [unlock_shared] to the
    end; B performs its compare-exchange and the step after it. *)
Definition cas_loser_upgrade : list action :=
  [ Call 0 Lock_shared; Run 0 0; Run 0 0; Run 0 0; Run 0 0;
    Call 1 Lock_upgrade; Run 1 0; Run 1 0;
    Call 0 Unlock_shared; Run 0 0; Run 0 0;
    Run 1 0; Run 1 0 ].

End coverage.

(* ===================================================================== *)
(** ** Arithmetic of the state word                                      *)
(* ===================================================================== *)

Module word_facts.
Import upgrade_mutex.

Lemma land_pow2 (s k : Z) :
  0 <= k -> Z.land s (2 ^ k) = Z.b2z (Z.testbit s k) * 2 ^ k.
Proof.
  intros Hk. apply Z.bits_inj'. intros n Hn.
  rewrite Z.land_spec, Z.pow2_bits_eqb by lia.
  destruct (Z.testbit s k) eqn:E; cbn [Z.b2z].
  - rewrite Z.mul_1_l, Z.pow2_bits_eqb by lia.
    destruct (Z.eqb_spec k n); subst; rewrite ?E; auto using andb_false_r.
  - rewrite Z.mul_0_l, Z.bits_0.
    destruct (Z.eqb_spec k n); subst; rewrite ?E; auto using andb_false_r.
Qed.

Lemma land_bit (s k : Z) :
  0 <= k -> Z.land s (2 ^ k) = (s / 2 ^ k) mod 2 * 2 ^ k.
Proof. intros Hk. rewrite land_pow2, Z.testbit_spec' by lia. reflexivity. Qed.

Lemma land_WRITE s : Z.land s WRITE_LOCKED_FLAG = (s / 2 ^ 31) mod 2 * 2 ^ 31.
Proof. change WRITE_LOCKED_FLAG with (2 ^ 31). apply land_bit. lia. Qed.

Lemma land_UPGRADE s : Z.land s UPGRADE_LOCKED_FLAG = (s / 2 ^ 30) mod 2 * 2 ^ 30.
Proof. change UPGRADE_LOCKED_FLAG with (2 ^ 30). apply land_bit. lia. Qed.

Lemma land_PENDING s : Z.land s UPGRADE_PENDING_FLAG = (s / 2 ^ 29) mod 2 * 2 ^ 29.
Proof. change UPGRADE_PENDING_FLAG with (2 ^ 29). apply land_bit. lia. Qed.

Lemma land_MASK s : Z.land s READER_COUNT_MASK = s mod 2 ^ 29.
Proof. change READER_COUNT_MASK with (Z.ones 29). apply Z.land_ones. lia. Qed.

Lemma lor_pow2 (s k : Z) :
  0 <= k -> Z.lor s (2 ^ k) = s + 2 ^ k - (s / 2 ^ k) mod 2 * 2 ^ k.
Proof.
  intros Hk. rewrite <- land_bit by lia.
  pose proof (Z.add_lor_land s (2 ^ k)). lia.
Qed.

Lemma lor_UPGRADE s :
  Z.lor s UPGRADE_LOCKED_FLAG = s + 2 ^ 30 - (s / 2 ^ 30) mod 2 * 2 ^ 30.
Proof. change UPGRADE_LOCKED_FLAG with (2 ^ 30). apply lor_pow2. lia. Qed.

Lemma lor_PENDING s :
  Z.lor s UPGRADE_PENDING_FLAG = s + 2 ^ 29 - (s / 2 ^ 29) mod 2 * 2 ^ 29.
Proof. change UPGRADE_PENDING_FLAG with (2 ^ 29). apply lor_pow2. lia. Qed.

End word_facts.

(** Turns every test on a state word into linear arithmetic over its
    quotients and remainders by powers of two. *)
Ltac word_unfold :=
  unfold upgrade_mutex.lock_cond, upgrade_mutex.lock_new_state,
    upgrade_mutex.lock_shared_cond, upgrade_mutex.lock_shared_new_state,
    upgrade_mutex.lock_upgrade_cond, upgrade_mutex.lock_upgrade_new_state,
    upgrade_mutex.unlock_shared_notifies, upgrade_mutex.unlock_upgrade_notifies,
    upgrade_mutex.readers_drained,
    upgrade_mutex.WRITER, upgrade_mutex.UPGRADER, upgrade_mutex.PENDING,
    upgrade_mutex.READERS in *;
  rewrite ?word_facts.land_WRITE, ?word_facts.land_UPGRADE,
    ?word_facts.land_PENDING, ?word_facts.land_MASK,
    ?word_facts.lor_UPGRADE, ?word_facts.lor_PENDING in *;
  change upgrade_mutex.WRITE_LOCKED_FLAG with 2147483648 in *;
  change upgrade_mutex.UPGRADE_LOCKED_FLAG with 1073741824 in *;
  change upgrade_mutex.UPGRADE_PENDING_FLAG with 536870912 in *;
  change upgrade_mutex.READER_COUNT_MASK with 536870911 in *;
  change upgrade_mutex.ONE_READER with 1 in *;
  unfold upgrade_mutex.uint32 in *;
  change (2 ^ 32) with 4294967296 in *;
  change (2 ^ 31) with 2147483648 in *;
  change (2 ^ 30) with 1073741824 in *;
  change (2 ^ 29) with 536870912 in *.

Ltac word_cases :=
  repeat match goal with
    | |- context [?a =? ?b] => destruct (Z.eqb_spec a b)
    | H : context [?a =? ?b] |- _ => destruct (Z.eqb_spec a b)
    end;
  cbn [negb andb orb] in *.

Ltac word_lia := Z.to_euclidean_division_equations; lia.

Ltac word_solve := word_unfold; word_cases; try discriminate; try word_lia.

(* ===================================================================== *)
(** ** Single calls and single-threaded sequences                        *)
(* ===================================================================== *)

Module call_facts.
Import upgrade_mutex design.

Lemma eta (m : t) : mk (state_ m) (internal_mutex_ m) (notified m) = m.
Proof. destruct m; reflexivity. Qed.

(** What [unlock_shared] does on every state word. *)
Lemma unlock_shared_effect (m : t) :
  unlock_shared m =
  Returned tt
    (if (READERS (state_ m) =? 1) && negb (UPGRADER (state_ m))
     then with_notified (notify_one gate2_) (with_state (uint32 (state_ m - 1)) m)
     else with_state (uint32 (state_ m - 1)) m).
Proof.
  unfold unlock_shared, bind, fetch_sub, unlock_shared_notifies, READERS, UPGRADER.
  change ONE_READER with 1.
  destruct (Z.land (state_ m) READER_COUNT_MASK =? 1),
    (Z.land (state_ m) UPGRADE_LOCKED_FLAG =? 0); reflexivity.
Qed.

(** What the predicate of [lock_shared] does on every state word. *)
Lemma lock_shared_pred_effect (m : t) :
  lock_shared_pred m =
  if negb (WRITER (state_ m)) && negb (PENDING (state_ m))
  then Returned true (with_state (uint32 (state_ m + 1)) m)
  else Returned false m.
Proof.
  unfold lock_shared_pred, bind, load, lock_shared_cond, WRITER, PENDING,
    compare_exchange_strong, lock_shared_new_state, ret.
  change ONE_READER with 1.
  destruct (Z.land (state_ m) WRITE_LOCKED_FLAG =? 0),
    (Z.land (state_ m) UPGRADE_PENDING_FLAG =? 0); cbn [negb andb]; try reflexivity.
  rewrite Z.eqb_refl. reflexivity.
Qed.

Lemma READERS_lor_PENDING (s : Z) :
  READERS (Z.lor s UPGRADE_PENDING_FLAG) = READERS s.
Proof.
  unfold READERS. rewrite Z.land_lor_distr_l.
  change (Z.land UPGRADE_PENDING_FLAG READER_COUNT_MASK) with 0.
  apply Z.lor_0_r.
Qed.

(** C1: [unlock_shared] subtracts one reader and notifies [gate2_]
    exactly when the word it found had READERS = 1 and UPGRADER clear;
    in every other case it sends nothing.  In particular, with an
    upgrade pending and exactly one reader left, that reader's
    [unlock_shared] brings READERS to zero and leaves the history of
    notifications as it was, where C1 asks for a notification on
    [gate2_]. *)
Theorem unlock_shared_pending_upgrade_sends_nothing :
  (forall m : t,
     unlock_shared m
     = Returned tt
         (if (READERS (state_ m) =? 1) && negb (UPGRADER (state_ m))
          then with_notified (notify_one gate2_)
                 (with_state (uint32 (state_ m - ONE_READER)) m)
          else with_state (uint32 (state_ m - ONE_READER)) m))
  /\ (forall (b : bool) (ns : list notification),
        UPGRADER (UPGRADE_LOCKED_FLAG + UPGRADE_PENDING_FLAG + ONE_READER) = true
        /\ READERS (UPGRADE_LOCKED_FLAG + UPGRADE_PENDING_FLAG + ONE_READER) = 1
        /\ unlock_shared
             (mk (UPGRADE_LOCKED_FLAG + UPGRADE_PENDING_FLAG + ONE_READER) b ns)
           = Returned tt (mk (UPGRADE_LOCKED_FLAG + UPGRADE_PENDING_FLAG) b ns)
        /\ READERS (UPGRADE_LOCKED_FLAG + UPGRADE_PENDING_FLAG) = 0).
Proof.
  split.
  - exact unlock_shared_effect.
  - intros b ns. repeat split.
Qed.

Lemma lock_pred_on_zero (m : t) :
  state_ m = 0 -> lock_pred m = Returned true (with_state WRITE_LOCKED_FLAG m).
Proof.
  intros H. unfold lock_pred, bind, load, lock_cond, compare_exchange_strong.
  rewrite H. cbn. rewrite H. reflexivity.
Qed.

Lemma lock_pred_on_nonzero (m : t) :
  state_ m <> 0 -> lock_pred m = Returned false m.
Proof.
  intros H. unfold lock_pred, bind, load, lock_cond, ret.
  destruct (Z.eqb_spec (state_ m) 0); [contradiction | reflexivity].
Qed.

Lemma lock_sleeps_on_nonzero (m : t) :
  state_ m <> 0 -> internal_mutex_ m = false -> lock m = Blocked (on_gate gate2_) m.
Proof.
  intros H Hi. unfold lock, bind, internal_lock, wait. rewrite Hi.
  rewrite (lock_pred_on_nonzero (with_internal true m)) by exact H.
  unfold with_internal. cbn [state_ notified]. rewrite <- Hi. f_equal. apply eta.
Qed.


Lemma lock_shared_effect (s : Z) (ns : list notification) :
  lock_shared (mk s false ns) =
  if negb (WRITER s) && negb (PENDING s)
  then Returned tt (mk (uint32 (s + 1)) false ns)
  else Blocked (on_gate gate1_) (mk s false ns).
Proof.
  unfold lock_shared, bind, internal_lock, wait. cbn [internal_mutex_].
  rewrite lock_shared_pred_effect. cbn [state_ with_internal].
  destruct (negb (WRITER s) && negb (PENDING s)); reflexivity.
Qed.



Lemma upgrade_to_unique_runs (s : Z) (ns : list notification) :
  upgrade_to_unique (mk s false ns)
  = (if READERS s =? 0
     then Returned tt (mk WRITE_LOCKED_FLAG false ns)
     else Blocked (on_gate gate2_) (mk (Z.lor s UPGRADE_PENDING_FLAG) false ns)).
Proof.
  cbv [upgrade_to_unique bind internal_lock fetch_or wait upgrade_to_unique_pred
         load ret readers_drained with_state with_internal state_ internal_mutex_
         notified].
  change (Z.land (Z.lor s UPGRADE_PENDING_FLAG) READER_COUNT_MASK)
    with (READERS (Z.lor s UPGRADE_PENDING_FLAG)).
  rewrite READERS_lor_PENDING.
  destruct (READERS s =? 0); reflexivity.
Qed.

(** C7: from the all-zero word, one thread running [lock_upgrade;
    upgrade_to_unique; unique_to_upgrade; unlock_upgrade] goes through
    the words UPGRADER, WRITER, UPGRADER and ends, every call having
    returned, on the zero word with the internal mutex free. *)
Theorem upgrade_cycle_returns_to_free :
  forall ns : list notification,
    state_after (calls [Lock_upgrade] (mk 0 false ns)) = UPGRADE_LOCKED_FLAG
    /\ state_after (calls [Lock_upgrade; Upgrade_to_unique] (mk 0 false ns))
       = WRITE_LOCKED_FLAG
    /\ state_after (calls [Lock_upgrade; Upgrade_to_unique; Unique_to_upgrade]
                      (mk 0 false ns)) = UPGRADE_LOCKED_FLAG
    /\ exists ns',
         calls [Lock_upgrade; Upgrade_to_unique; Unique_to_upgrade; Unlock_upgrade]
           (mk 0 false ns)
         = Returned tt (mk 0 false ns').
Proof.
  intros ns. repeat split. eexists. reflexivity.
Qed.

(** C8: the scoped-upgrade entry and exit are [upgrade_to_unique] and
    [unique_to_upgrade]; whenever the entry returns, the exit returns
    too and leaves UPGRADER set and WRITER clear; and the entry does
    return for the upgradeable holder once no reader is left. *)
Theorem scoped_upgrade_is_upgrade_then_downgrade :
  (forall m, scoped_upgrade_entry m = upgrade_to_unique m)
  /\ (forall m, scoped_upgrade_exit m = unique_to_upgrade m)
  /\ (forall m m1,
        scoped_upgrade_entry m = Returned tt m1 ->
        exists m2,
          scoped_upgrade_exit m1 = Returned tt m2
          /\ calls [Scoped_upgrade_entry; Scoped_upgrade_exit] m = Returned tt m2
          /\ UPGRADER (state_ m2) = true /\ WRITER (state_ m2) = false)
  /\ (forall r ns,
        0 <= r <= READER_COUNT_MASK ->
        scoped_upgrade_entry (mk (UPGRADE_LOCKED_FLAG + r) false ns)
        = (if r =? 0
           then Returned tt (mk WRITE_LOCKED_FLAG false ns)
           else Blocked (on_gate gate2_)
                  (mk (UPGRADE_LOCKED_FLAG + UPGRADE_PENDING_FLAG + r) false ns))).
Proof.
  split; [reflexivity|]. split; [reflexivity|]. split.
  - intros m m1 H. eexists. split; [reflexivity|]. split; [|split; reflexivity].
    cbn [calls body]. unfold bind at 1. rewrite H.
    unfold bind at 1. unfold scoped_upgrade_exit, unique_to_upgrade, bind, store, notify, ret.
    reflexivity.
  - intros r ns Hr. unfold scoped_upgrade_entry.
    rewrite upgrade_to_unique_runs.
    assert (Hrd : READERS (UPGRADE_LOCKED_FLAG + r) = r) by word_solve.
    assert (Hor : Z.lor (UPGRADE_LOCKED_FLAG + r) UPGRADE_PENDING_FLAG
                  = UPGRADE_LOCKED_FLAG + UPGRADE_PENDING_FLAG + r) by word_solve.
    rewrite Hrd, Hor. reflexivity.
Qed.

Lemma scoped_upgrade_is_upgrade_then_downgrade_witness :
  exists m2,
    calls [Scoped_upgrade_entry; Scoped_upgrade_exit] (mk UPGRADE_LOCKED_FLAG false [])
    = Returned tt m2
    /\ UPGRADER (state_ m2) = true /\ WRITER (state_ m2) = false.
Proof.
  destruct scoped_upgrade_is_upgrade_then_downgrade as (_ & _ & H & _).
  destruct (H (mk UPGRADE_LOCKED_FLAG false []) (mk WRITE_LOCKED_FLAG false []) eq_refl)
    as (m2 & _ & H2 & H3).
  exists m2. split; [exact H2 | exact H3].
Defined.

(** C9, as amended: on a 32-bit state word, when the caller holds the
    corresponding mode, [unlock] subtracts exactly the WRITER bit,
    [unlock_shared] exactly one reader and [unlock_upgrade] exactly the
    UPGRADER bit, each leaving the other three fields as they were; and
    a successful [lock_shared] that starts below the reader ceiling
    [2^29 - 1] adds exactly one reader and leaves the three flags as
    they were. *)
Theorem releases_and_shared_acquire_frame :
  forall s : Z,
    0 <= s < 2 ^ 32 ->
    unlock_frame s /\ unlock_shared_frame s /\ unlock_upgrade_frame s
    /\ (READERS s < READER_COUNT_MASK -> lock_shared_frame s).
Proof.
  intros s Hs. split; [|split; [|split]].
  - intros b ns HW. cbv zeta.
    change (state_after (unlock (mk s b ns))) with (uint32 (s - WRITE_LOCKED_FLAG)).
    repeat split; word_solve.
  - intros b ns HR. cbv zeta.
    assert (E : state_after (unlock_shared (mk s b ns)) = uint32 (s - ONE_READER)).
    { rewrite unlock_shared_effect. cbn [state_].
      destruct (_ && _); reflexivity. }
    rewrite E. unfold same_flags. repeat split; word_solve.
  - intros b ns HU. cbv zeta.
    assert (E : state_after (unlock_upgrade (mk s b ns)) = uint32 (s - UPGRADE_LOCKED_FLAG)).
    { unfold unlock_upgrade, bind, fetch_sub. cbn [state_].
      destruct (unlock_upgrade_notifies s); reflexivity. }
    rewrite E. repeat split; word_solve.
  - intros Hceil b ns m' H. rewrite lock_shared_pred_effect in H. cbn [state_] in H.
    destruct (WRITER s) eqn:EW, (PENDING s) eqn:EP; cbn [negb andb] in H;
      try discriminate.
    injection H as <-. cbn [state_ with_state]. unfold same_flags.
    rewrite EW, EP. repeat split; word_solve.
Qed.

Lemma releases_and_shared_acquire_frame_witness :
  unlock_frame WRITE_LOCKED_FLAG
  /\ unlock_shared_frame (UPGRADE_LOCKED_FLAG + 2)
  /\ unlock_upgrade_frame (UPGRADE_LOCKED_FLAG + 2)
  /\ lock_shared_frame (UPGRADE_LOCKED_FLAG + 2).
Proof.
  split; [|split; [|split]].
  - apply (releases_and_shared_acquire_frame WRITE_LOCKED_FLAG).
    vm_compute; split; [discriminate | reflexivity].
  - apply (releases_and_shared_acquire_frame (UPGRADE_LOCKED_FLAG + 2)).
    vm_compute; split; [discriminate | reflexivity].
  - apply (releases_and_shared_acquire_frame (UPGRADE_LOCKED_FLAG + 2)).
    vm_compute; split; [discriminate | reflexivity].
  - apply (releases_and_shared_acquire_frame (UPGRADE_LOCKED_FLAG + 2)).
    + vm_compute; split; [discriminate | reflexivity].
    + reflexivity.
Defined.

(** C9, as stated, fails at the reader ceiling: on the word with
    [2^29 - 1] readers and no flag [lock_shared] succeeds, and its
    addition carries into the PENDING bit. *)
Lemma lock_shared_at_ceiling_breaks_frame :
  ~ lock_shared_frame READER_COUNT_MASK.
Proof.
  intros H.
  destruct (H false [] (mk UPGRADE_PENDING_FLAG false []) eq_refl) as [H1 _].
  vm_compute in H1. discriminate.
Qed.

End call_facts.

(* ===================================================================== *)
(** ** Lock guards that own nothing                                      *)
(* ===================================================================== *)

Module guard_facts.
Import upgrade_mutex guards.

Lemma holds_nothing_null (g : lock_guard_base) :
  holds_nothing g -> p_mutex_ g = None.
Proof. destruct 1; reflexivity. Qed.

Lemma invoke_if_owned_null (g : lock_guard_base) (f : method) (w : world) :
  p_mutex_ g = None -> invoke_if_owned g f w = Done tt w.
Proof. unfold invoke_if_owned. intros ->. reflexivity. Qed.

(** C10: a guard that was default-constructed, moved from or released
    reports [owns_lock() = false], and destroying it as a [unique_lock],
    a [shared_lock] or an [upgrade_lock] completes with the world
    unchanged: no mutex is modified and no member function is recorded
    as called.  A [scoped_upgrade] built from such a guard, or from any
    [upgrade_lock] whose pointer is null, does the same on construction
    and on destruction. *)
Theorem empty_guard_calls_nothing :
  forall g : lock_guard_base,
    holds_nothing g \/ mutex g = None ->
    owns_lock g = false
    /\ forall w : world,
         unique_lock_dtor g w = Done tt w
         /\ shared_lock_dtor g w = Done tt w
         /\ upgrade_lock_dtor g w = Done tt w
         /\ exists su : scoped_upgrade,
              scoped_upgrade_ctor g w = Done su w
              /\ scoped_upgrade_dtor su w = Done tt w.
Proof.
  intros g Hg.
  assert (Hnull : p_mutex_ g = None).
  { destruct Hg as [Hg | Hg]; [apply holds_nothing_null, Hg | exact Hg]. }
  split.
  - unfold owns_lock. rewrite Hnull. reflexivity.
  - intros w.
    unfold unique_lock_dtor, shared_lock_dtor, upgrade_lock_dtor.
    rewrite !invoke_if_owned_null by exact Hnull.
    repeat split.
    exists {| su_p_mutex_ := None |}.
    unfold scoped_upgrade_ctor, scoped_upgrade_dtor, mutex.
    rewrite Hnull. split; reflexivity.
Qed.

Lemma empty_guard_calls_nothing_witness :
  owns_lock (snd (move_ctor (ref_ctor 7))) = false
  /\ unique_lock_dtor (snd (move_ctor (ref_ctor 7)))
       {| heap := {[ 7%nat := upgrade_mutex.mk WRITE_LOCKED_FLAG false [] ]};
          called := [(7%nat, Lock)] |}
     = Done tt {| heap := {[ 7%nat := upgrade_mutex.mk WRITE_LOCKED_FLAG false [] ]};
                  called := [(7%nat, Lock)] |}.
Proof.
  destruct (empty_guard_calls_nothing (snd (move_ctor (ref_ctor 7)))
              (or_introl (moved_from (ref_ctor 7)))) as [H1 H2].
  split; [exact H1 | apply H2].
Defined.

End guard_facts.

(* ===================================================================== *)
(** ** Interleaved executions: invariants, overflow, lost wake-up        *)
(* ===================================================================== *)

Module sched_facts.
Import upgrade_mutex sched sched_inv design.

Section sums.
Context {A : Type} (f : A -> Z).

Lemma sumZ_cons (a : A) (l : list A) : sumZ f (a :: l) = f a + sumZ f l.
Proof. reflexivity. Qed.

Lemma sumZ_insert (l : list A) (i : nat) (x y : A) :
  l !! i = Some x -> sumZ f (<[i := y]> l) = sumZ f l - f x + f y.
Proof.
  revert i. induction l as [|a l IH]; intros [|i] H; try discriminate.
  - injection H as ->. cbn [list_insert insert]. rewrite !sumZ_cons. lia.
  - change (<[S i := y]> (a :: l)) with (a :: <[i := y]> l).
    rewrite !sumZ_cons, (IH i H). lia.
Qed.

Lemma sumZ_app (l1 l2 : list A) : sumZ f (l1 ++ l2) = sumZ f l1 + sumZ f l2.
Proof.
  induction l1 as [|a l1 IH]; [reflexivity|].
  rewrite <- app_comm_cons, !sumZ_cons, IH. lia.
Qed.

Lemma sumZ_replicate (n : nat) (x : A) :
  sumZ f (replicate n x) = Z.of_nat n * f x.
Proof.
  induction n as [|n IH]; [reflexivity|].
  cbn [replicate]. rewrite sumZ_cons, IH. lia.
Qed.

Lemma sumZ_nonneg (l : list A) : (forall x, 0 <= f x) -> 0 <= sumZ f l.
Proof.
  intros H. induction l as [|a l IH]; [reflexivity|].
  rewrite sumZ_cons. specialize (H a). lia.
Qed.

Lemma sumZ_lookup_le (l : list A) (i : nat) (x : A) :
  (forall x, 0 <= f x) -> l !! i = Some x -> f x <= sumZ f l.
Proof.
  intros Hf. revert i. induction l as [|a l IH]; intros [|i] H; try discriminate.
  - injection H as ->. rewrite sumZ_cons. pose proof (sumZ_nonneg l Hf). lia.
  - rewrite sumZ_cons. specialize (IH i H). specialize (Hf a). lia.
Qed.

Lemma sumZ_map (g : A -> A) (l : list A) :
  (forall x, f (g x) = f x) -> sumZ f (map g l) = sumZ f l.
Proof.
  intros H. induction l as [|a l IH]; [reflexivity|].
  cbn [map]. rewrite !sumZ_cons, H, IH. lia.
Qed.
End sums.


Lemma is_exclusive_nonneg ag : 0 <= is_exclusive ag.
Proof. unfold is_exclusive. destruct (held ag); lia. Qed.
Lemma is_upgrade_nonneg ag : 0 <= is_upgrade ag.
Proof. unfold is_upgrade. destruct (held ag), (draining (pc_ ag)); lia. Qed.
Lemma is_pending_nonneg ag : 0 <= is_pending ag.
Proof. unfold is_pending. destruct (held ag), (draining (pc_ ag)); lia. Qed.
Lemma is_shared_nonneg ag : 0 <= is_shared ag.
Proof. unfold is_shared. destruct (held ag); lia. Qed.
Lemma is_inside_nonneg ag : 0 <= is_inside ag.
Proof. unfold is_inside. destruct (pc_ ag); lia. Qed.
Lemma is_storing_nonneg ag : 0 <= is_storing ag.
Proof. unfold is_storing. destruct (pc_ ag); lia. Qed.

Lemma count_put (f : agent -> Z) c i ag p h m :
  agents c !! i = Some ag ->
  count f (put i p h m c) = count f c - f ag + f (mk_agent p h).
Proof. intros H. unfold count, put. cbn [agents]. apply sumZ_insert, H. Qed.

Lemma wake_cases g ag :
  wake g ag = ag
  \/ exists a, pc_ ag = asleep a /\ wake g ag = mk_agent (at_relock a) (held ag).
Proof.
  unfold wake. destruct (pc_ ag) eqn:E; auto.
  destruct (gate_eqb (gate_of a) g); eauto.
Qed.

Ltac wake_blind_tac :=
  intros g [p h]; destruct (wake_cases g (mk_agent p h)) as [-> | [a [E ->]]];
  [reflexivity | cbn in E; subst p; destruct a, h; reflexivity].

Lemma wake_blind_exclusive : wake_blind is_exclusive.
Proof. wake_blind_tac. Qed.
Lemma wake_blind_upgrade : wake_blind is_upgrade.
Proof. wake_blind_tac. Qed.
Lemma wake_blind_pending : wake_blind is_pending.
Proof. wake_blind_tac. Qed.
Lemma wake_blind_shared : wake_blind is_shared.
Proof. wake_blind_tac. Qed.
Lemma wake_blind_inside : wake_blind is_inside.
Proof. wake_blind_tac. Qed.
Lemma wake_blind_storing : wake_blind is_storing.
Proof. wake_blind_tac. Qed.

Lemma wake_consistent g ag : consistent ag -> consistent (wake g ag).
Proof.
  destruct ag as [p h]. destruct (wake_cases g (mk_agent p h)) as [-> | [a [E ->]]]; auto.
  cbn in E. subst p. auto.
Qed.

Lemma deliver_keeps n j c c' :
  deliver n j c = Some c' ->
  mtx c' = mtx c
  /\ (forall f, wake_blind f -> count f c' = count f c)
  /\ (Forall consistent (agents c) -> Forall consistent (agents c')).
Proof.
  destruct n as [g | g]; cbn [deliver].
  - destruct (existsb (sleeping_on g) (agents c)).
    + destruct (agents c !! j) as [w|] eqn:Hj; [|discriminate].
      destruct (sleeping_on g w); [|discriminate].
      intros [= <-]. cbn [mtx agents]. split; [reflexivity|]. split.
      * intros f Hf. unfold count. cbn [agents].
        rewrite (sumZ_insert f _ _ _ _ Hj), Hf. lia.
      * intros H. apply Forall_insert; [exact H|].
        apply wake_consistent. exact (Forall_lookup_1 _ _ _ _ H Hj).
    + intros [= <-]. auto.
  - intros [= <-]. cbn [mtx agents]. split; [reflexivity|]. split.
    + intros f Hf. unfold count. cbn [agents]. apply sumZ_map. intros x. apply Hf.
    + intros H. rewrite Forall_map. eapply Forall_impl; [exact H|].
      intros x. apply wake_consistent.
Qed.


Lemma inv_agent c i ag :
  inv c -> agents c !! i = Some ag ->
  consistent ag
  /\ is_exclusive ag <= count is_exclusive c
  /\ is_upgrade ag <= count is_upgrade c
  /\ is_pending ag <= count is_pending c
  /\ is_shared ag <= count is_shared c
  /\ is_inside ag <= count is_inside c
  /\ is_storing ag <= count is_storing c.
Proof.
  intros [_ Hc] H. split; [exact (Forall_lookup_1 _ _ _ _ Hc H)|].
  unfold count.
  repeat split; apply sumZ_lookup_le with (i := i);
    auto using is_exclusive_nonneg, is_upgrade_nonneg, is_pending_nonneg,
      is_shared_nonneg, is_inside_nonneg, is_storing_nonneg.
Qed.

Lemma inv_put c i ag p h m :
  agents c !! i = Some ag ->
  Forall consistent (agents c) ->
  consistent (mk_agent p h) ->
  balanced (state_ m) (internal_mutex_ m)
    (count is_exclusive c - is_exclusive ag + is_exclusive (mk_agent p h))
    (count is_upgrade c - is_upgrade ag + is_upgrade (mk_agent p h))
    (count is_pending c - is_pending ag + is_pending (mk_agent p h))
    (count is_shared c - is_shared ag + is_shared (mk_agent p h))
    (count is_inside c - is_inside ag + is_inside (mk_agent p h))
    (count is_storing c - is_storing ag + is_storing (mk_agent p h)) ->
  inv (put i p h m c).
Proof.
  intros H Hc Hp Hb. split.
  - rewrite !(count_put _ c i ag p h m H). exact Hb.
  - unfold put. cbn [agents]. apply Forall_insert; assumption.
Qed.

Lemma inv_deliver n j c c' :
  inv c -> deliver n j c = Some c' -> inv c'.
Proof.
  intros [Hb Hc] H. destruct (deliver_keeps _ _ _ _ H) as (Hm & Hf & Hc').
  split; [|auto].
  rewrite Hm, !Hf
    by auto using wake_blind_exclusive, wake_blind_upgrade, wake_blind_pending,
         wake_blind_shared, wake_blind_inside, wake_blind_storing.
  exact Hb.
Qed.

Ltac tally :=
  cbn [is_exclusive is_upgrade is_pending is_shared is_inside is_storing
       draining pc_ held resume rel_notifications app entry] in *.

Ltac balance :=
  unfold balanced in *; cbn [state_ internal_mutex_ with_state with_internal
    with_notified notified] in *;
  repeat match goal with
    | H : context [internal_mutex_ ?m] |- _ => destruct (internal_mutex_ m)
    | |- context [internal_mutex_ ?m] => destruct (internal_mutex_ m)
    end;
  cbn [Z.b2z] in *; word_unfold; word_cases;
  try discriminate; try word_lia.

Ltac landed Hlook Hc Hrange :=
  match goal with
  | Hstep : Some _ = Some _ |- _ => injection Hstep as <-
  end;
  try rewrite (count_put _ _ _ _ _ _ _ Hlook) in Hrange;
  apply (inv_put _ _ _ _ _ _ Hlook Hc);
  [ cbn in *; intuition (auto; congruence) | tally; balance ].

Lemma step_inv c act c' :
  inv c -> step c act = Some c' ->
  outstanding_shared c' <= READER_COUNT_MASK -> inv c'.
Proof.
  intros Hinv Hstep Hrange.
  change (outstanding_shared c') with (count is_shared c') in Hrange.
  destruct act as [i f | i j | i]; cbn [step] in Hstep;
    destruct (agents c !! i) as [[p h]|] eqn:Hlook; try discriminate;
    destruct (inv_agent c i _ Hinv Hlook) as (Hme & Hx & Hu & Hp & Hr & Hi & Ht);
    destruct Hinv as [Hb Hc].
  - (* a call *)
    cbn [pc_ held] in Hstep. destruct p; try discriminate.
    destruct (may_call h f) eqn:Hcall; [|discriminate].
    destruct f, h; try discriminate; landed Hlook Hc Hrange.
  - (* an atomic operation *)
    unfold run_agent in Hstep. cbn [pc_ held] in Hstep.
    destruct p as [ | a | | a | a cur | a | a | a | | | r | d | ns ].
    + discriminate.
    + (* at_internal_lock *)
      unfold internal_lock in Hstep.
      destruct (internal_mutex_ (mtx c)) eqn:Hint; [discriminate|].
      destruct a, h; cbn in Hme; try discriminate; landed Hlook Hc Hrange.
    + (* at_fetch_or *)
      unfold fetch_or in Hstep.
      destruct h; cbn in Hme; try discriminate; landed Hlook Hc Hrange.
    + (* at_pred *)
      unfold load in Hstep.
      destruct (acq_cond a (state_ (mtx c))) eqn:Hcond;
        destruct a, h; cbn in Hme; try discriminate;
        cbn [acq_cond] in Hcond; landed Hlook Hc Hrange.
    + (* at_cas *)
      unfold compare_exchange_strong in Hstep.
      destruct Hme as (Ha & Hh & Hcond). cbn [held] in Hh. subst h.
      destruct (Z.eqb_spec (state_ (mtx c)) cur) as [Heq | Hne];
        [symmetry in Heq; subst cur|];
        destruct a; try contradiction;
        cbn [acq_cond acq_new_state acq_hold] in *; landed Hlook Hc Hrange.
    + (* at_wait *)
      destruct a, h; cbn in Hme; try discriminate; landed Hlook Hc Hrange.
    + discriminate.
    + (* at_relock *)
      unfold internal_lock in Hstep.
      destruct (internal_mutex_ (mtx c)) eqn:Hint; [discriminate|].
      destruct a, h; cbn in Hme; try discriminate; landed Hlook Hc Hrange.
    + (* at_store_writer *)
      unfold store in Hstep.
      destruct h; cbn in Hme; try discriminate; landed Hlook Hc Hrange.
    + (* at_internal_unlock *)
      unfold internal_unlock in Hstep.
      destruct h; landed Hlook Hc Hrange.
    + (* at_fetch_sub *)
      unfold fetch_sub in Hstep. injection Hstep as <-.
      rewrite (count_put _ _ _ _ _ _ _ Hlook) in Hrange.
      apply (inv_put _ _ _ _ _ _ Hlook Hc).
      * destruct r; cbn [rel_notifications];
          repeat match goal with
            | |- context [if ?b then _ else _] => destruct b
            end; exact I.
      * destruct r, h; cbn in Hme; try discriminate; cbn [rel_flag rel_notifications] in *;
          repeat match goal with
            | |- context [if ?b then _ else _] => destruct b
            end; tally; balance.
    + (* at_store *)
      unfold store in Hstep.
      destruct d, h; cbn in Hme; try discriminate;
        cbn [dg_value dg_hold] in *; landed Hlook Hc Hrange.
    + (* at_notify *)
      destruct ns as [|n ns]; [discriminate|].
      unfold notify in Hstep.
      refine (inv_deliver _ _ _ _ _ Hstep).
      apply (inv_put _ _ _ _ _ _ Hlook Hc).
      * destruct ns; exact I.
      * destruct ns, h; tally; balance.
  - (* a spurious wake-up *)
    cbn [pc_ held] in Hstep. destruct p; try discriminate.
    destruct a, h; cbn in Hme; try discriminate; landed Hlook Hc Hrange.
Qed.


Lemma inv_initial n : inv (initial n).
Proof.
  split.
  - unfold count, initial. cbn [agents mtx state_ internal_mutex_ upgrade_mutex.init].
    rewrite !sumZ_replicate. tally. unfold balanced. cbn [Z.b2z]. word_unfold. lia.
  - unfold initial. cbn [agents]. apply Forall_replicate. exact I.
Qed.

Lemma exec_cons act sched c :
  exec (act :: sched) c = match step c act with Some c' => exec sched c' | None => None end.
Proof. reflexivity. Qed.

Lemma exec_app s1 s2 c c1 :
  exec s1 c = Some c1 -> exec (s1 ++ s2) c = exec s2 c1.
Proof.
  revert c. induction s1 as [|act s1 IH]; intros c H.
  - injection H as ->. reflexivity.
  - rewrite <- app_comm_cons, exec_cons. rewrite exec_cons in H.
    destruct (step c act); [auto | discriminate].
Qed.

Lemma readers_in_range_tail c act sched c1 :
  step c act = Some c1 ->
  readers_in_range c (act :: sched) ->
  outstanding_shared c1 <= READER_COUNT_MASK /\ readers_in_range c1 sched.
Proof.
  intros Hstep H. split.
  - apply (H 1%nat). cbn [take]. rewrite exec_cons, Hstep. reflexivity.
  - intros k c' Hk. apply (H (S k)). cbn [take]. rewrite exec_cons, Hstep. exact Hk.
Qed.

Lemma exec_inv sched c c' :
  inv c -> exec sched c = Some c' -> readers_in_range c sched -> inv c'.
Proof.
  revert c. induction sched as [|act sched IH]; intros c Hinv H Hrange.
  - injection H as <-. exact Hinv.
  - rewrite exec_cons in H. destruct (step c act) as [c1|] eqn:Hstep; [|discriminate].
    destruct (readers_in_range_tail _ _ _ _ Hstep Hrange) as [H1 H2].
    eauto using step_inv.
Qed.

Lemma balanced_P1_P2 s b x u p r i t :
  balanced s b x u p r i t -> P1 s /\ P2 s.
Proof.
  unfold balanced, P1, P2. intros H. split; intros Hf; repeat split; word_solve.
Qed.

(** C3, as amended: along any schedule of the nine operations, each
    called under its ownership precondition, that never has more than
    [2^29 - 1] shared holds outstanding, every state word reached from
    the all-zero initial state satisfies P1 and P2. *)
Theorem state_word_invariants :
  forall (n : nat) (sched : list action) (c : config),
    exec sched (initial n) = Some c ->
    readers_in_range (initial n) sched ->
    P1 (state_ (mtx c)) /\ P2 (state_ (mtx c)).
Proof.
  intros n sched c H Hrange.
  destruct (exec_inv sched (initial n) c (inv_initial n) H Hrange) as [Hb _].
  exact (balanced_P1_P2 _ _ _ _ _ _ _ _ Hb).
Qed.


(** *** Few agents never overflow the reader count *)

Lemma deliver_length n j c c' :
  deliver n j c = Some c' -> length (agents c') = length (agents c).
Proof.
  destruct n as [g | g]; cbn [deliver].
  - destruct (existsb (sleeping_on g) (agents c)).
    + destruct (agents c !! j) as [w|]; [|discriminate].
      destruct (sleeping_on g w); [|discriminate].
      intros [= <-]. cbn [agents]. apply length_insert.
    + intros [= <-]. reflexivity.
  - intros [= <-]. cbn [agents]. apply length_map.
Qed.

Lemma put_length i p h m c : length (agents (put i p h m c)) = length (agents c).
Proof. unfold put. cbn [agents]. apply length_insert. Qed.

Lemma step_length c act c' :
  step c act = Some c' -> length (agents c') = length (agents c).
Proof.
  destruct act as [i f | i j | i]; cbn [step];
    destruct (agents c !! i) as [[p h]|]; try discriminate; cbn [pc_ held].
  - destruct p; try discriminate. destruct (may_call h f); [|discriminate].
    intros [= <-]. apply put_length.
  - unfold run_agent. cbn [pc_ held].
    destruct p as [ | a | | a | a cur | a | a | a | | | r | d | ns ];
      try discriminate;
      unfold internal_lock, fetch_or, load, compare_exchange_strong, store,
        internal_unlock, fetch_sub, notify;
      repeat match goal with
        | |- context [if ?b then _ else _] => destruct b
        end;
      try discriminate; try (intros [= <-]; apply put_length).
    destruct ns as [|n ns]; [discriminate|].
    intros H. rewrite (deliver_length _ _ _ _ H). apply put_length.
  - destruct p; try discriminate. intros [= <-]. apply put_length.
Qed.

Lemma exec_length sched c c' :
  exec sched c = Some c' -> length (agents c') = length (agents c).
Proof.
  revert c. induction sched as [|act sched IH]; intros c H.
  - injection H as <-. reflexivity.
  - rewrite exec_cons in H. destruct (step c act) as [c1|] eqn:Hstep; [|discriminate].
    rewrite (IH _ H). eauto using step_length.
Qed.

Lemma sumZ_is_shared_le (l : list agent) : sumZ is_shared l <= Z.of_nat (length l).
Proof.
  induction l as [|ag l IH]; [reflexivity|].
  rewrite sumZ_cons. cbn [length]. unfold is_shared at 1. destruct (held ag); lia.
Qed.

Lemma few_agents_in_range (n : nat) (sched : list action) :
  Z.of_nat n <= READER_COUNT_MASK -> readers_in_range (initial n) sched.
Proof.
  intros Hn k c' H. unfold outstanding_shared.
  pose proof (sumZ_is_shared_le (agents c')) as Hle.
  rewrite (exec_length _ _ _ H) in Hle. unfold initial in Hle. cbn [agents] in Hle.
  rewrite length_replicate in Hle. lia.
Qed.

Lemma state_word_invariants_witness :
  P1 (state_ (mtx drained)) /\ P2 (state_ (mtx drained)).
Proof.
  apply (state_word_invariants 3 drain_scenario drained).
  - reflexivity.
  - apply few_agents_in_range. vm_compute. discriminate.
Defined.


(** *** Solo runs *)

Lemma put_lookup i p h m c :
  (i < length (agents c))%nat -> agents (put i p h m c) !! i = Some (mk_agent p h).
Proof. intros H. unfold put. cbn [agents]. apply list_lookup_insert_eq, H. Qed.

Lemma put_put i p h m p' h' m' c :
  put i p' h' m' (put i p h m c) = put i p' h' m' c.
Proof. unfold put. cbn [agents]. rewrite list_insert_insert_eq. reflexivity. Qed.

Lemma run_put i j p h m c :
  (i < length (agents c))%nat ->
  step (put i p h m c) (Run i j) = run_agent i j (mk_agent p h) (put i p h m c).
Proof. intros H. cbn [step]. rewrite put_lookup by exact H. reflexivity. Qed.

Lemma shared_acquisition_exec c i :
  agents c !! i = Some (mk_agent idle no_hold) ->
  internal_mutex_ (mtx c) = false ->
  lock_shared_cond (state_ (mtx c)) = true ->
  exec (shared_acquisition i) c
  = Some (put i idle shared_hold
            (with_state (lock_shared_new_state (state_ (mtx c))) (mtx c)) c).
Proof.
  intros Hlook Hint Hcond.
  assert (Hlt : (i < length (agents c))%nat) by (eapply lookup_lt_Some; eauto).
  unfold shared_acquisition.
  rewrite exec_cons. cbn [step]. rewrite Hlook. cbn [pc_ held may_call entry].
  rewrite exec_cons, run_put by exact Hlt.
  unfold run_agent, internal_lock. cbn [pc_ held mtx put]. rewrite Hint, put_put.
  rewrite exec_cons, run_put by exact Hlt.
  unfold run_agent, load. cbn [pc_ held mtx put acq_cond state_ with_internal].
  rewrite Hcond, put_put.
  rewrite exec_cons, run_put by exact Hlt.
  unfold run_agent, compare_exchange_strong.
  cbn [pc_ held mtx put state_ with_internal acq_new_state acq_hold].
  rewrite Z.eqb_refl, put_put.
  rewrite exec_cons, run_put by exact Hlt.
  unfold run_agent, internal_unlock. cbn [pc_ held mtx put].
  rewrite put_put. cbn [exec]. do 2 f_equal.
  destruct (mtx c) as [s b ns]. cbn in *. subst b. reflexivity.
Qed.


(** *** Filling the reader count to the brim *)

Lemma crowd_step (n k : nat) :
  (k < n)%nat -> Z.of_nat k < 2 ^ 29 ->
  exec (shared_acquisition k) (crowd n k) = Some (crowd n (S k)).
Proof.
  intros Hk Hsmall.
  assert (Hsplit : (n - k = S (n - S k))%nat) by lia.
  rewrite shared_acquisition_exec.
  - f_equal. unfold put, crowd. cbn [mtx agents state_]. f_equal.
    + unfold with_state. cbn [state_ internal_mutex_ notified]. f_equal.
      unfold lock_shared_new_state, uint32. change ONE_READER with 1.
      rewrite Z.mod_small; lia.
    + rewrite insert_app_r_alt by (rewrite length_replicate; lia).
      rewrite length_replicate, Nat.sub_diag, Hsplit.
      cbn [replicate list_insert insert].
      rewrite (cons_middle _ (replicate k _)), app_assoc.
      f_equal. symmetry. apply replicate_cons_app.
  - unfold crowd. cbn [agents].
    rewrite lookup_app_r by (rewrite length_replicate; lia).
    rewrite length_replicate, Nat.sub_diag, Hsplit. reflexivity.
  - reflexivity.
  - unfold crowd. cbn [mtx state_]. word_solve.
Qed.

Lemma crowd_reached (n k : nat) :
  (k <= n)%nat -> Z.of_nat k <= 2 ^ 29 ->
  exec (shared_acquisitions k) (initial n) = Some (crowd n k).
Proof.
  induction k as [|k IH]; intros Hk Hsmall.
  - cbn [shared_acquisitions exec]. unfold crowd, initial.
    cbn [replicate app]. rewrite Nat.sub_0_r. reflexivity.
  - cbn [shared_acquisitions].
    rewrite (exec_app _ _ _ (crowd n k)) by (apply IH; lia).
    apply crowd_step; lia.
Qed.

(** C3, as stated, fails after [2^29] shared acquisitions: each is
    called by an agent that holds nothing, and the state word they leave
    has PENDING set and UPGRADER clear. *)
Lemma reader_overflow_breaks_P2 :
  exec (shared_acquisitions (Z.to_nat (2 ^ 29))) (initial (Z.to_nat (2 ^ 29)))
  = Some (crowd (Z.to_nat (2 ^ 29)) (Z.to_nat (2 ^ 29)))
  /\ ~ P2 (state_ (mtx (crowd (Z.to_nat (2 ^ 29)) (Z.to_nat (2 ^ 29))))).
Proof.
  split.
  - apply crowd_reached; [apply Nat.le_refl|]. rewrite Z2Nat.id; lia.
  - change (state_ (mtx (crowd (Z.to_nat (2 ^ 29)) (Z.to_nat (2 ^ 29)))))
      with (Z.of_nat (Z.to_nat (2 ^ 29))).
    rewrite Z2Nat.id by lia.
    intros H. specialize (H eq_refl). vm_compute in H. discriminate.
Qed.


(** *** The upgrader that is never woken *)

Lemma wedged_step c act c' :
  wedged c -> is_spurious act = false -> step c act = Some c' -> wedged c'.
Proof.
  intros (Hs & Hn & rest & Hag & Hrest) Hact Hstep.
  destruct act as [i f | i j | i]; [| |discriminate]; cbn [step] in Hstep;
    rewrite Hag in Hstep; destruct i as [|i]; try discriminate;
    cbn [lookup list_lookup] in Hstep;
    destruct (rest !! i) as [[p h]|] eqn:Hlook; try discriminate;
    destruct (Forall_lookup_1 _ _ _ _ Hrest Hlook) as [Hh Hp];
    cbn [held pc_] in Hh, Hp, Hstep; subst h.
  - (* a call by an agent that holds nothing *)
    destruct p; try discriminate.
    destruct f; try discriminate; injection Hstep as <-;
      (split; [exact Hs | split; [exact Hn |]]);
      unfold put; cbn [agents]; rewrite Hag;
      eexists; (split; [reflexivity |]);
      apply Forall_insert; auto; split; cbn; congruence.
  - (* an atomic operation of an agent that holds nothing *)
    unfold run_agent in Hstep. cbn [pc_ held] in Hstep.
    destruct p as [ | a | | a | a cur | a | a | a | | | r | d | ns ];
      try contradiction; try discriminate.
    + unfold internal_lock in Hstep.
      destruct (internal_mutex_ (mtx c)); [discriminate|].
      destruct a; try contradiction; injection Hstep as <-;
        (split; [exact Hs | split; [exact Hn |]]);
        unfold put; cbn [agents]; rewrite Hag;
        eexists; (split; [reflexivity |]);
        apply Forall_insert; auto; split; cbn; congruence.
    + unfold load in Hstep. rewrite Hs in Hstep.
      destruct a; try contradiction; cbn in Hstep; injection Hstep as <-;
        (split; [exact Hs | split; [exact Hn |]]);
        unfold put; cbn [agents]; rewrite Hag;
        eexists; (split; [reflexivity |]);
        apply Forall_insert; auto; split; cbn; congruence.
    + destruct a; try contradiction; injection Hstep as <-;
        (split; [exact Hs | split; [exact Hn |]]);
        unfold put; cbn [agents]; rewrite Hag;
        eexists; (split; [reflexivity |]);
        apply Forall_insert; auto; split; cbn; congruence.
Qed.

Lemma wedged_exec sched c c' :
  wedged c ->
  forallb (fun act => negb (is_spurious act)) sched = true ->
  exec sched c = Some c' -> wedged c'.
Proof.
  revert c. induction sched as [|act sched IH]; intros c Hw Hs H.
  - injection H as <-. exact Hw.
  - rewrite exec_cons in H. destruct (step c act) as [c1|] eqn:Hstep; [|discriminate].
    cbn [forallb] in Hs. apply andb_prop in Hs as [Ha Hs].
    apply (IH c1); auto. eapply wedged_step; eauto.
    destruct (is_spurious act); [discriminate | reflexivity].
Qed.

Lemma wedged_drained : wedged drained.
Proof.
  split; [reflexivity|]. split; [reflexivity|].
  eexists. split; [reflexivity|].
  repeat constructor; cbn; congruence.
Qed.

(** C2: the run of scenario 5 ends with the upgrader asleep on [gate2_]
    inside [upgrade_to_unique], PENDING set, the last reader gone and no
    notification ever sent.  From there, whatever the agents do and in
    whatever order, as long as no wake-up is spurious: the upgrader is
    still asleep, the state word still has UPGRADER and PENDING set and
    READERS zero, no notification has been sent, and nobody else holds
    anything.  So new shared acquirers do block and the reader does
    release, but the upgrader is not unblocked by that release. *)
Theorem pending_upgrader_is_never_woken :
  exec drain_scenario (initial 3) = Some drained
  /\ READERS (state_ (mtx drained)) = 0
  /\ forall (sched : list action) (c' : config),
       forallb (fun act => negb (is_spurious act)) sched = true ->
       exec sched drained = Some c' ->
       agents c' !! 0%nat = Some sleeping_upgrader
       /\ state_ (mtx c') = UPGRADE_LOCKED_FLAG + UPGRADE_PENDING_FLAG
       /\ notified (mtx c') = []
       /\ forall (i : nat) (ag : agent),
            agents c' !! S i = Some ag -> held ag = no_hold.
Proof.
  split; [reflexivity|]. split; [reflexivity|].
  intros sched c' Hs H.
  destruct (wedged_exec _ _ _ wedged_drained Hs H) as (Hst & Hn & rest & Hag & Hrest).
  rewrite Hag. split; [reflexivity|]. split; [exact Hst|]. split; [exact Hn|].
  intros i ag Hi. cbn [lookup list_lookup] in Hi.
  exact (proj1 (Forall_lookup_1 _ _ _ _ Hrest Hi)).
Qed.

Lemma pending_upgrader_is_never_woken_witness :
  agents {| mtx := mk (UPGRADE_LOCKED_FLAG + UPGRADE_PENDING_FLAG) false [];
            agents := [ sleeping_upgrader;
                        mk_agent (asleep acq_lock_shared) no_hold;
                        mk_agent (asleep acq_lock_shared) no_hold ] |} !! 0%nat
  = Some sleeping_upgrader.
Proof.
  apply (proj2 (proj2 pending_upgrader_is_never_woken)
           [Call 1 Lock_shared; Run 1 0; Run 1 0; Run 1 0]
           {| mtx := mk (UPGRADE_LOCKED_FLAG + UPGRADE_PENDING_FLAG) false [];
              agents := [ sleeping_upgrader;
                          mk_agent (asleep acq_lock_shared) no_hold;
                          mk_agent (asleep acq_lock_shared) no_hold ] |}
           eq_refl eq_refl).
Defined.

(** The wake-up is all that is missing: woken spuriously, the same
    upgrader finds READERS at zero and completes with the word equal to
    WRITE_LOCKED_FLAG. *)
Example spurious_wakeup_completes_upgrade :
  exec [Spurious 0; Run 0 0; Run 0 0; Run 0 0; Run 0 0] drained
  = Some {| mtx := mk WRITE_LOCKED_FLAG false [];
            agents := [ mk_agent idle exclusive_hold;
                        mk_agent idle no_hold;
                        mk_agent (asleep acq_lock_shared) no_hold ] |}.
Proof. reflexivity. Qed.


(** *** The interleaved semantics runs the member functions *)

Ltac evaluate :=
  cbv -[Z.land Z.lor Z.eqb Z.add Z.sub Z.modulo Z.pow
        lock_cond lock_shared_cond lock_upgrade_cond readers_drained
        unlock_shared_notifies unlock_upgrade_notifies
        WRITE_LOCKED_FLAG UPGRADE_LOCKED_FLAG UPGRADE_PENDING_FLAG
        READER_COUNT_MASK ONE_READER uint32
        lock_new_state lock_shared_new_state lock_upgrade_new_state].

(** An agent alone, stepping through a member function one atomic
    operation at a time, ends where the body of that function ends: idle
    with the same mutex when the body returns, asleep on the same gate
    with the same mutex when the body suspends. *)
Lemma solo_call_agrees (f : method) (h : hold) (s : Z) (ns : list notification) :
  may_call h f = true ->
  match body f (mk s false ns) with
  | Returned _ m' =>
      exists h', solo_call f h (mk s false ns)
                 = {| mtx := m'; agents := [mk_agent idle h'] |}
  | Blocked (on_gate g) m' =>
      exists a, gate_of a = g
                /\ solo_call f h (mk s false ns)
                   = {| mtx := m'; agents := [mk_agent (asleep a) h] |}
  | Blocked on_internal_mutex _ => False
  end.
Proof.
  intros Hcall.
  destruct f, h; try discriminate Hcall; clear Hcall;
    evaluate;
    repeat match goal with
      | |- context [if ?b then _ else _] => destruct b eqn:?
      end;
    rewrite ?Z.eqb_refl; evaluate;
    try (eexists; reflexivity);
    try (eexists; split; [|reflexivity]; reflexivity).
Qed.

Lemma with_internal_roundtrip (m : upgrade_mutex.t) :
  internal_mutex_ m = false -> with_internal false (with_internal true m) = m.
Proof. destruct m as [s b ns]. cbn. intros ->. reflexivity. Qed.

(** A sleeper in [lock] that is woken while the word is not zero takes
    the internal mutex, evaluates its predicate, and goes back to
    sleep. *)
Lemma locker_goes_back_to_sleep c i :
  agents c !! i = Some (mk_agent (at_relock acq_lock) no_hold) ->
  internal_mutex_ (mtx c) = false ->
  state_ (mtx c) <> 0 ->
  exec [Run i 0; Run i 0; Run i 0] c
  = Some (put i (asleep acq_lock) no_hold (mtx c) c).
Proof.
  intros Hlook Hint Hne.
  assert (Hlt : (i < length (agents c))%nat) by (eapply lookup_lt_Some; eauto).
  assert (Hcond : lock_cond (state_ (mtx c)) = false).
  { unfold lock_cond. destruct (Z.eqb_spec (state_ (mtx c)) 0); [contradiction | reflexivity]. }
  rewrite exec_cons. cbn [step]. rewrite Hlook.
  unfold run_agent, internal_lock. cbn [pc_ held]. rewrite Hint.
  rewrite exec_cons, run_put by exact Hlt.
  unfold run_agent, load. cbn [pc_ held mtx put acq_cond state_ with_internal].
  rewrite Hcond, put_put.
  rewrite exec_cons, run_put by exact Hlt.
  unfold run_agent. cbn [pc_ held mtx put].
  rewrite put_put, with_internal_roundtrip by exact Hint. reflexivity.
Qed.

(** A sleeper in [upgrade_to_unique] that is woken takes the internal
    mutex and evaluates its predicate: while READERS is not zero it goes
    back to sleep; once READERS is zero it stores WRITE_LOCKED_FLAG,
    releases the internal mutex and returns as the exclusive holder.
    Neither path adds to the history of notifications. *)
Lemma upgrader_rechecks c i :
  agents c !! i = Some (mk_agent (at_relock acq_upgrade_to_unique) upgrade_hold) ->
  internal_mutex_ (mtx c) = false ->
  (READERS (state_ (mtx c)) <> 0 ->
     exec [Run i 0; Run i 0; Run i 0] c
     = Some (put i (asleep acq_upgrade_to_unique) upgrade_hold (mtx c) c))
  /\ (READERS (state_ (mtx c)) = 0 ->
        exec [Run i 0; Run i 0; Run i 0; Run i 0] c
        = Some (put i idle exclusive_hold
                  (with_state WRITE_LOCKED_FLAG (mtx c)) c)).
Proof.
  intros Hlook Hint.
  assert (Hlt : (i < length (agents c))%nat) by (eapply lookup_lt_Some; eauto).
  split; intros HR.
  - assert (Hcond : readers_drained (state_ (mtx c)) = false).
    { unfold readers_drained. fold (READERS (state_ (mtx c))).
      destruct (Z.eqb_spec (READERS (state_ (mtx c))) 0); [contradiction | reflexivity]. }
    rewrite exec_cons. cbn [step]. rewrite Hlook.
    unfold run_agent, internal_lock. cbn [pc_ held]. rewrite Hint.
    rewrite exec_cons, run_put by exact Hlt.
    unfold run_agent, load. cbn [pc_ held mtx put acq_cond state_ with_internal].
    rewrite Hcond, put_put.
    rewrite exec_cons, run_put by exact Hlt.
    unfold run_agent. cbn [pc_ held mtx put].
    rewrite put_put, with_internal_roundtrip by exact Hint. reflexivity.
  - assert (Hcond : readers_drained (state_ (mtx c)) = true).
    { unfold readers_drained. fold (READERS (state_ (mtx c))). rewrite HR. reflexivity. }
    rewrite exec_cons. cbn [step]. rewrite Hlook.
    unfold run_agent, internal_lock. cbn [pc_ held]. rewrite Hint.
    rewrite exec_cons, run_put by exact Hlt.
    unfold run_agent, load. cbn [pc_ held mtx put acq_cond state_ with_internal].
    rewrite Hcond, put_put.
    rewrite exec_cons, run_put by exact Hlt.
    unfold run_agent, store. cbn [pc_ held mtx put].
    rewrite put_put.
    rewrite exec_cons, run_put by exact Hlt.
    unfold run_agent, internal_unlock. cbn [pc_ held mtx put].
    rewrite put_put. cbn [exec]. do 2 f_equal.
    destruct (mtx c) as [s b ns]. cbn in *. subst b. reflexivity.
Qed.

End sched_facts.

(* ===================================================================== *)
(** ** Waiting in [lock] and in [upgrade_to_unique]                      *)
(* ===================================================================== *)

Module wait_facts.
Import upgrade_mutex sched sched_inv design.

(** C4: the predicate of [lock] succeeds exactly on the zero word, which
    it replaces by the word with only WRITER set; on every other word,
    the word with only UPGRADER set included, it returns false without
    changing anything.  On a nonzero word [lock] is therefore left
    sleeping on [gate2_], and a sleeper that is woken while the word is
    nonzero goes back to sleep. *)
Theorem lock_pred_succeeds_only_on_zero :
  (forall m : upgrade_mutex.t,
     state_ m = 0 ->
     lock_pred m = Returned true (with_state WRITE_LOCKED_FLAG m))
  /\ decode WRITE_LOCKED_FLAG
     = {| f_WRITER := true; f_UPGRADER := false; f_PENDING := false; f_READERS := 0 |}
  /\ (forall m : upgrade_mutex.t,
        state_ m <> 0 -> lock_pred m = Returned false m)
  /\ (forall m : upgrade_mutex.t,
        lock_pred (with_state UPGRADE_LOCKED_FLAG m)
        = Returned false (with_state UPGRADE_LOCKED_FLAG m))
  /\ (forall m : upgrade_mutex.t,
        state_ m <> 0 -> internal_mutex_ m = false ->
        lock m = Blocked (on_gate gate2_) m)
  /\ (forall (c : config) (i : nat),
        agents c !! i = Some (mk_agent (at_relock acq_lock) no_hold) ->
        internal_mutex_ (mtx c) = false ->
        state_ (mtx c) <> 0 ->
        exec [Run i 0; Run i 0; Run i 0] c
        = Some (put i (asleep acq_lock) no_hold (mtx c) c)).
Proof.
  split; [exact call_facts.lock_pred_on_zero|].
  split; [reflexivity|].
  split; [exact call_facts.lock_pred_on_nonzero|].
  split; [reflexivity|].
  split; [exact call_facts.lock_sleeps_on_nonzero|].
  exact sched_facts.locker_goes_back_to_sleep.
Qed.

Lemma lock_pred_succeeds_only_on_zero_witness :
  lock_pred init = Returned true (with_state WRITE_LOCKED_FLAG init)
  /\ lock (mk ONE_READER false []) = Blocked (on_gate gate2_) (mk ONE_READER false [])
  /\ exec [Run 0 0; Run 0 0; Run 0 0]
        {| mtx := mk ONE_READER false [];
           agents := [mk_agent (at_relock acq_lock) no_hold] |}
     = Some {| mtx := mk ONE_READER false [];
               agents := [mk_agent (asleep acq_lock) no_hold] |}.
Proof.
  destruct lock_pred_succeeds_only_on_zero as (H1 & _ & _ & _ & H2 & H3).
  split; [|split].
  - apply H1. reflexivity.
  - apply H2; [discriminate | reflexivity].
  - apply (H3 {| mtx := mk ONE_READER false [];
                 agents := [mk_agent (at_relock acq_lock) no_hold] |} 0%nat);
      [reflexivity | reflexivity | discriminate].
Defined.

(** C6: [upgrade_to_unique] first ORs PENDING into the word, which
    leaves READERS as it was.  If READERS is then zero it stores
    WRITE_LOCKED_FLAG, the word in which only WRITER is set, and
    returns; otherwise it is left sleeping on [gate2_] with PENDING set,
    and each time it is woken it goes back to sleep while READERS is
    not zero and completes with the same store once READERS is zero.
    On every one of these paths the history of notifications is the one
    it started with. *)
Theorem upgrade_to_unique_effect :
  (forall (s : Z) (ns : list notification),
     (internal_lock >> fetch_or UPGRADE_PENDING_FLAG)%mutex (mk s false ns)
     = Returned s (mk (Z.lor s UPGRADE_PENDING_FLAG) true ns)
     /\ PENDING (Z.lor s UPGRADE_PENDING_FLAG) = true
     /\ READERS (Z.lor s UPGRADE_PENDING_FLAG) = READERS s)
  /\ (forall (s : Z) (ns : list notification),
        upgrade_to_unique (mk s false ns)
        = (if READERS s =? 0
           then Returned tt (mk WRITE_LOCKED_FLAG false ns)
           else Blocked (on_gate gate2_) (mk (Z.lor s UPGRADE_PENDING_FLAG) false ns)))
  /\ decode WRITE_LOCKED_FLAG
     = {| f_WRITER := true; f_UPGRADER := false; f_PENDING := false; f_READERS := 0 |}
  /\ (forall (c : config) (i : nat),
        agents c !! i
        = Some (mk_agent (at_relock acq_upgrade_to_unique) upgrade_hold) ->
        internal_mutex_ (mtx c) = false ->
        (READERS (state_ (mtx c)) <> 0 ->
           exec [Run i 0; Run i 0; Run i 0] c
           = Some (put i (asleep acq_upgrade_to_unique) upgrade_hold (mtx c) c))
        /\ (READERS (state_ (mtx c)) = 0 ->
              exec [Run i 0; Run i 0; Run i 0; Run i 0] c
              = Some (put i idle exclusive_hold
                        (with_state WRITE_LOCKED_FLAG (mtx c)) c))).
Proof.
  split; [|split; [|split]].
  - intros s ns. split; [reflexivity|]. split.
    + word_solve.
    + apply call_facts.READERS_lor_PENDING.
  - exact call_facts.upgrade_to_unique_runs.
  - reflexivity.
  - exact sched_facts.upgrader_rechecks.
Qed.

Lemma upgrade_to_unique_effect_witness :
  exec [Run 0 0; Run 0 0; Run 0 0; Run 0 0]
    {| mtx := mk (UPGRADE_LOCKED_FLAG + UPGRADE_PENDING_FLAG) false [];
       agents := [mk_agent (at_relock acq_upgrade_to_unique) upgrade_hold] |}
  = Some {| mtx := mk WRITE_LOCKED_FLAG false [];
            agents := [mk_agent idle exclusive_hold] |}.
Proof.
  destruct upgrade_to_unique_effect as (_ & _ & _ & H).
  apply (H {| mtx := mk (UPGRADE_LOCKED_FLAG + UPGRADE_PENDING_FLAG) false [];
              agents := [mk_agent (at_relock acq_upgrade_to_unique) upgrade_hold] |}
           0%nat); reflexivity.
Defined.

End wait_facts.

(* ===================================================================== *)
(** ** More on single calls: the upgradeable mode, round trips, blocking *)
(* ===================================================================== *)

Module call_more.
Import upgrade_mutex design coverage.

Lemma lock_upgrade_pred_effect (m : t) :
  lock_upgrade_pred m =
  if negb (WRITER (state_ m)) && negb (UPGRADER (state_ m))
  then Returned true (with_state (Z.lor (state_ m) UPGRADE_LOCKED_FLAG) m)
  else Returned false m.
Proof.
  unfold lock_upgrade_pred, bind, load, lock_upgrade_cond, WRITER, UPGRADER,
    compare_exchange_strong, lock_upgrade_new_state, ret.
  destruct (Z.land (state_ m) WRITE_LOCKED_FLAG =? 0),
    (Z.land (state_ m) UPGRADE_LOCKED_FLAG =? 0); cbn [negb andb]; try reflexivity.
  rewrite Z.eqb_refl. reflexivity.
Qed.

Lemma lock_upgrade_runs (s : Z) (ns : list notification) :
  lock_upgrade (mk s false ns) =
  if negb (WRITER s) && negb (UPGRADER s)
  then Returned tt (mk (Z.lor s UPGRADE_LOCKED_FLAG) false ns)
  else Blocked (on_gate gate1_) (mk s false ns).
Proof.
  unfold lock_upgrade, bind, internal_lock, wait. cbn [internal_mutex_].
  rewrite lock_upgrade_pred_effect. cbn [state_ with_internal].
  destruct (negb (WRITER s) && negb (UPGRADER s)); reflexivity.
Qed.

Lemma unlock_upgrade_runs (s : Z) (b : bool) (ns : list notification) :
  unlock_upgrade (mk s b ns) =
  Returned tt
    (mk (uint32 (s - UPGRADE_LOCKED_FLAG)) b
       ((if READERS s =? 0 then ns ++ [notify_one gate2_] else ns)
        ++ [notify_all gate1_])).
Proof.
  unfold unlock_upgrade, bind, fetch_sub, unlock_upgrade_notifies, READERS.
  cbn [state_]. destruct (Z.land s READER_COUNT_MASK =? 0); reflexivity.
Qed.

Lemma unlock_shared_runs (s : Z) (b : bool) (ns : list notification) :
  unlock_shared (mk s b ns) =
  Returned tt
    (mk (uint32 (s - ONE_READER)) b
       (if (READERS s =? 1) && negb (UPGRADER s)
        then ns ++ [notify_one gate2_] else ns)).
Proof.
  rewrite call_facts.unlock_shared_effect. cbn [state_].
  destruct ((READERS s =? 1) && negb (UPGRADER s)); reflexivity.
Qed.

Lemma calls_cons (f : method) (fs : list method) (m : t) :
  calls (f :: fs) m
  = match body f m with
    | Returned _ m' => calls fs m'
    | Blocked w m' => Blocked w m'
    end.
Proof. reflexivity. Qed.

(** A call of [lock_upgrade] (lines 312-324) during which no other
    thread runs, started with the internal mutex free: it returns
    exactly when neither WRITER nor UPGRADER is set; it then sets
    UPGRADER and leaves WRITER, PENDING and READERS as they were.
    Otherwise it is left asleep on [gate1_] and has changed nothing.  It
    never sends a notification. *)
Lemma lock_upgrade_alone_sets_only_upgrader :
  forall (s : Z) (ns : list notification),
    0 <= s < 2 ^ 32 ->
    (WRITER s = false -> UPGRADER s = false ->
       lock_upgrade (mk s false ns)
       = Returned tt (mk (s + UPGRADE_LOCKED_FLAG) false ns)
       /\ decode (s + UPGRADE_LOCKED_FLAG)
          = {| f_WRITER := false; f_UPGRADER := true;
               f_PENDING := PENDING s; f_READERS := READERS s |})
    /\ (WRITER s = true \/ UPGRADER s = true ->
          lock_upgrade (mk s false ns) = Blocked (on_gate gate1_) (mk s false ns)).
Proof.
  intros s ns Hs. split.
  - intros HW HU. rewrite lock_upgrade_runs, HW, HU. cbn [negb andb].
    assert (E : Z.lor s UPGRADE_LOCKED_FLAG = s + UPGRADE_LOCKED_FLAG) by word_solve.
    rewrite E. split; [reflexivity|]. unfold decode.
    assert (WRITER (s + UPGRADE_LOCKED_FLAG) = false) by word_solve.
    assert (UPGRADER (s + UPGRADE_LOCKED_FLAG) = true) by word_solve.
    assert (PENDING (s + UPGRADE_LOCKED_FLAG) = PENDING s) by word_solve.
    assert (READERS (s + UPGRADE_LOCKED_FLAG) = READERS s) by word_solve.
    congruence.
  - intros [H | H]; rewrite lock_upgrade_runs, H; [|rewrite andb_false_r]; reflexivity.
Qed.

(** X2.  [lock_shared(); unlock_shared();] by one thread, started on any
    32-bit word on which the acquisition is admitted (WRITER and PENDING
    clear) and whose reader count is below its ceiling: both calls
    return and the word is the one it started with.  A notification is
    sent, on [gate2_], exactly when the mutex was FREE of readers and
    upgrader at the start. *)
Theorem shared_round_trip :
  forall (s : Z) (ns : list notification),
    0 <= s < 2 ^ 32 ->
    WRITER s = false -> PENDING s = false -> READERS s < READER_COUNT_MASK ->
    calls [Lock_shared; Unlock_shared] (mk s false ns)
    = Returned tt
        (mk s false
           (if (READERS s =? 0) && negb (UPGRADER s)
            then ns ++ [notify_one gate2_] else ns)).
Proof.
  intros s ns Hs HW HP HR.
  rewrite calls_cons. cbn [body].
  rewrite call_facts.lock_shared_effect, HW, HP. cbn [negb andb].
  rewrite calls_cons. cbn [body]. rewrite unlock_shared_runs. cbn [calls ret].
  assert (E1 : uint32 (uint32 (s + 1) - ONE_READER) = s) by word_solve.
  assert (E2 : READERS (uint32 (s + 1)) = READERS s + 1) by word_solve.
  assert (E3 : UPGRADER (uint32 (s + 1)) = UPGRADER s) by word_solve.
  rewrite E1, E2, E3.
  replace (READERS s + 1 =? 1) with (READERS s =? 0); [reflexivity|].
  destruct (Z.eqb_spec (READERS s) 0), (Z.eqb_spec (READERS s + 1) 1); lia || reflexivity.
Qed.

Lemma shared_round_trip_witness :
  calls [Lock_shared; Unlock_shared] (mk (UPGRADE_LOCKED_FLAG + 4) false [])
  = Returned tt (mk (UPGRADE_LOCKED_FLAG + 4) false []).
Proof.
  apply (shared_round_trip (UPGRADE_LOCKED_FLAG + 4) []);
    [vm_compute; split; [discriminate | reflexivity] | reflexivity .. ].
Defined.

(** X3.  [lock_upgrade(); unlock_upgrade();] by one thread, started on any
    32-bit word with WRITER and UPGRADER clear: both calls return and
    the word is the one it started with.  The release notifies one
    waiter on [gate2_] exactly when there is no reader, and always ends
    with a broadcast on [gate1_]. *)
Theorem upgrade_round_trip :
  forall (s : Z) (ns : list notification),
    0 <= s < 2 ^ 32 ->
    WRITER s = false -> UPGRADER s = false ->
    calls [Lock_upgrade; Unlock_upgrade] (mk s false ns)
    = Returned tt
        (mk s false
           ((if READERS s =? 0 then ns ++ [notify_one gate2_] else ns)
            ++ [notify_all gate1_])).
Proof.
  intros s ns Hs HW HU.
  rewrite calls_cons. cbn [body].
  rewrite lock_upgrade_runs, HW, HU. cbn [negb andb].
  rewrite calls_cons. cbn [body]. rewrite unlock_upgrade_runs. cbn [calls ret].
  assert (E1 : uint32 (Z.lor s UPGRADE_LOCKED_FLAG - UPGRADE_LOCKED_FLAG) = s)
    by word_solve.
  assert (E2 : READERS (Z.lor s UPGRADE_LOCKED_FLAG) = READERS s) by word_solve.
  rewrite E1, E2. reflexivity.
Qed.

Lemma upgrade_round_trip_witness :
  calls [Lock_upgrade; Unlock_upgrade] (mk 2 false [])
  = Returned tt (mk 2 false [notify_all gate1_]).
Proof.
  apply (upgrade_round_trip 2 []);
    [vm_compute; split; [discriminate | reflexivity] | reflexivity .. ].
Defined.

(** X4.  The exclusive holder's ways out.  From the FREE mutex [lock();
    unlock();] returns to FREE.  Whatever the word was, a downgrade
    followed by the matching release leaves the word at zero:
    [unique_to_shared(); unlock_shared();] and [unique_to_upgrade();
    unlock_upgrade();]; and after [unique_to_shared()] a second reader
    is admitted at once, giving READERS = 2.  The notifications sent are
    listed in order. *)
Theorem exclusive_holder_ways_out :
  forall (s : Z) (ns : list notification),
    calls [Lock; Unlock] (mk 0 false ns)
    = Returned tt (mk 0 false ((ns ++ [notify_one gate2_]) ++ [notify_all gate1_]))
    /\ calls [Unique_to_shared; Unlock_shared] (mk s false ns)
       = Returned tt (mk 0 false ((ns ++ [notify_all gate1_]) ++ [notify_one gate2_]))
    /\ calls [Unique_to_upgrade; Unlock_upgrade] (mk s false ns)
       = Returned tt
           (mk 0 false
              (((ns ++ [notify_all gate1_]) ++ [notify_one gate2_])
               ++ [notify_all gate1_]))
    /\ calls [Unique_to_shared; Lock_shared] (mk s false ns)
       = Returned tt (mk 2 false (ns ++ [notify_all gate1_])).
Proof. intros s ns. repeat split. Qed.

(** X5.  The releases and the downgrades never block and never touch the
    internal mutex, whoever holds it: on every mutex they return, with
    the internal mutex as it was and the earlier notifications kept. *)
Theorem releases_never_block :
  forall (f : method) (m : t),
    is_release f = true ->
    exists (m' : t) (sent : list notification),
      body f m = Returned tt m'
      /\ internal_mutex_ m' = internal_mutex_ m
      /\ notified m' = notified m ++ sent.
Proof.
  intros f [s b ns] Hf. destruct f; try discriminate Hf; cbn [body].
  - eexists _, [_; _]. unfold unlock, bind, fetch_sub, notify, with_notified.
    cbn. rewrite <- app_assoc. repeat split.
  - rewrite unlock_shared_runs.
    destruct ((READERS s =? 1) && negb (UPGRADER s));
      [eexists _, [_] | eexists _, []]; cbn; rewrite ?app_nil_r; repeat split.
  - rewrite unlock_upgrade_runs.
    destruct (READERS s =? 0); [eexists _, [_; _] | eexists _, [_]];
      cbn; rewrite <- ?app_assoc; repeat split.
  - eexists _, [_]. repeat split.
  - eexists _, [_]. repeat split.
  - eexists _, [_]. repeat split.
Qed.

Lemma releases_never_block_witness :
  exists (m' : t) (sent : list notification),
    body Unlock (mk WRITE_LOCKED_FLAG true []) = Returned tt m'
    /\ internal_mutex_ m' = true
    /\ notified m' = [] ++ sent.
Proof. apply (releases_never_block Unlock (mk WRITE_LOCKED_FLAG true []) eq_refl). Defined.

(** X6.  The blocking member functions ([lock], [lock_shared],
    [lock_upgrade], [upgrade_to_unique], the scoped-upgrade entry) never
    send a notification.  Found with the internal mutex taken they wait
    for it and change nothing; started with it free they leave it free,
    whether they return or go to sleep on a gate. *)
Theorem acquirers_never_notify :
  forall (f : method) (m : t),
    is_release f = false ->
    (internal_mutex_ m = true -> body f m = Blocked on_internal_mutex m)
    /\ (internal_mutex_ m = false ->
          match body f m with
          | Returned _ m' =>
              internal_mutex_ m' = false /\ notified m' = notified m
          | Blocked w m' =>
              (exists g, w = on_gate g)
              /\ internal_mutex_ m' = false /\ notified m' = notified m
          end).
Proof.
  intros f [s b ns] Hf. cbn [internal_mutex_ notified].
  split; intros ->.
  - destruct f; try discriminate Hf; reflexivity.
  - destruct f; try discriminate Hf; cbn [body].
    + unfold lock, bind, internal_lock, wait. cbn [internal_mutex_].
      destruct (Z.eq_dec s 0) as [-> | Hne].
      * cbn. auto.
      * rewrite call_facts.lock_pred_on_nonzero by exact Hne. cbn. eauto.
    + rewrite call_facts.lock_shared_effect.
      destruct (negb (WRITER s) && negb (PENDING s)); cbn; eauto.
    + rewrite lock_upgrade_runs.
      destruct (negb (WRITER s) && negb (UPGRADER s)); cbn; eauto.
    + rewrite call_facts.upgrade_to_unique_runs.
      destruct (READERS s =? 0); cbn; eauto.
    + unfold scoped_upgrade_entry. rewrite call_facts.upgrade_to_unique_runs.
      destruct (READERS s =? 0); cbn; eauto.
Qed.

Lemma acquirers_never_notify_witness :
  body Lock_shared (mk WRITE_LOCKED_FLAG true [notify_all gate1_])
  = Blocked on_internal_mutex (mk WRITE_LOCKED_FLAG true [notify_all gate1_]).
Proof.
  apply (proj1 (acquirers_never_notify Lock_shared
                  (mk WRITE_LOCKED_FLAG true [notify_all gate1_]) eq_refl)).
  reflexivity.
Defined.

End call_more.

(* ===================================================================== *)
(** ** More on interleavings: who holds what, who is woken               *)
(* ===================================================================== *)

Module sched_more.
Import upgrade_mutex sched sched_inv design coverage sched_facts.

Section more_sums.
Context {A : Type} (f g : A -> Z).

Lemma sumZ_ext (l : list A) :
  (forall x, f x = g x) -> sumZ f l = sumZ g l.
Proof.
  intros H. induction l as [|a l IH]; [reflexivity|].
  rewrite !sumZ_cons, H, IH. reflexivity.
Qed.

Lemma sumZ_plus (l : list A) :
  sumZ (fun x => f x + g x) l = sumZ f l + sumZ g l.
Proof.
  induction l as [|a l IH]; [reflexivity|].
  rewrite !sumZ_cons, IH. lia.
Qed.

Lemma sumZ_two (l : list A) (i j : nat) (a b : A) :
  (forall x, 0 <= f x) -> i <> j ->
  l !! i = Some a -> l !! j = Some b -> f a + f b <= sumZ f l.
Proof.
  intros Hf. revert i j.
  induction l as [|x l IH]; intros [|i] [|j] Hij Hi Hj; try discriminate;
    try contradiction; rewrite sumZ_cons.
  - injection Hi as ->. cbn in Hj.
    pose proof (sumZ_lookup_le f l j b Hf Hj). lia.
  - injection Hj as ->. cbn in Hi.
    pose proof (sumZ_lookup_le f l i a Hf Hi). lia.
  - cbn in Hi, Hj. specialize (IH i j ltac:(congruence) Hi Hj).
    specialize (Hf x). lia.
Qed.

Lemma sumZ_pos_exists (l : list A) :
  0 < sumZ f l -> exists i x, l !! i = Some x /\ f x <> 0.
Proof.
  induction l as [|a l IH]; [cbn; lia|].
  rewrite sumZ_cons. intros H.
  destruct (Z.eq_dec (f a) 0) as [E | E].
  - destruct IH as (i & x & Hi & Hx); [lia|]. exists (S i), x. auto.
  - exists 0%nat, a. auto.
Qed.
End more_sums.

Lemma holding_nonneg h ag : 0 <= holding h ag.
Proof. unfold holding. destruct h, (held ag); lia. Qed.

Lemma count_holding_exclusive c :
  count (holding exclusive_hold) c = count is_exclusive c.
Proof.
  apply sumZ_ext. intros [p h]. unfold holding, is_exclusive. destruct h; reflexivity.
Qed.

Lemma count_holding_shared c :
  count (holding shared_hold) c = outstanding_shared c.
Proof.
  apply sumZ_ext. intros [p h]. unfold holding, is_shared. destruct h; reflexivity.
Qed.

Lemma count_holding_upgrade c :
  count (holding upgrade_hold) c = count is_upgrade c + count is_pending c.
Proof.
  unfold count. rewrite <- sumZ_plus. apply sumZ_ext.
  intros [p h]. unfold holding, is_upgrade, is_pending. cbn [held pc_].
  destruct h, (draining p); reflexivity.
Qed.

Lemma reachable_inv n sched c :
  exec sched (initial n) = Some c -> readers_in_range (initial n) sched -> inv c.
Proof. intros H Hr. exact (exec_inv sched (initial n) c (inv_initial n) H Hr). Qed.

(** X7.  Who holds the mutex can be read off the state word.  In every
    configuration reached from the FREE mutex without exceeding the
    reader ceiling: READERS is the number of agents holding a shared
    lock, WRITER is set exactly when one agent holds the exclusive lock,
    UPGRADER exactly when one agent holds the upgradeable lock (there is
    never more than one of either), and PENDING exactly when the
    upgradeable holder is between the [fetch_or] and the [store] of
    [upgrade_to_unique]. *)
Theorem state_word_counts_holders :
  forall (n : nat) (sched : list action) (c : config),
    exec sched (initial n) = Some c ->
    readers_in_range (initial n) sched ->
    READERS (state_ (mtx c)) = count (holding shared_hold) c
    /\ Z.b2z (WRITER (state_ (mtx c))) = count (holding exclusive_hold) c
    /\ Z.b2z (UPGRADER (state_ (mtx c))) = count (holding upgrade_hold) c
    /\ Z.b2z (PENDING (state_ (mtx c))) = count is_pending c.
Proof.
  intros n sched c H Hr.
  destruct (reachable_inv _ _ _ H Hr) as [Hb _].
  rewrite count_holding_shared, count_holding_exclusive, count_holding_upgrade.
  unfold outstanding_shared. fold (count is_shared c).
  unfold balanced in Hb.
  repeat split; word_unfold; word_cases; cbn [Z.b2z]; word_lia.
Qed.

Lemma state_word_counts_holders_witness :
  READERS (state_ (mtx drained)) = count (holding shared_hold) drained
  /\ Z.b2z (WRITER (state_ (mtx drained))) = count (holding exclusive_hold) drained
  /\ Z.b2z (UPGRADER (state_ (mtx drained))) = count (holding upgrade_hold) drained
  /\ Z.b2z (PENDING (state_ (mtx drained))) = count is_pending drained.
Proof.
  apply (state_word_counts_holders 3 drain_scenario drained).
  - reflexivity.
  - apply few_agents_in_range. vm_compute. discriminate.
Defined.

(** X8.  Mutual exclusion.  In every configuration reached from the FREE
    mutex without exceeding the reader ceiling, an agent that holds the
    exclusive lock is the only one that holds anything, and two
    different agents never both hold the upgradeable lock. *)
Theorem holders_exclude_each_other :
  forall (n : nat) (sched : list action) (c : config),
    exec sched (initial n) = Some c ->
    readers_in_range (initial n) sched ->
    forall (i j : nat) (agi agj : agent),
      i <> j -> agents c !! i = Some agi -> agents c !! j = Some agj ->
      (held agi = exclusive_hold -> held agj = no_hold)
      /\ (held agi = upgrade_hold -> held agj <> upgrade_hold).
Proof.
  intros n sched c H Hr i j agi agj Hij Hi Hj.
  destruct (reachable_inv _ _ _ H Hr) as [Hb _].
  pose proof (count_holding_exclusive c) as Ex.
  pose proof (count_holding_upgrade c) as Eu.
  pose proof (count_holding_shared c) as Es.
  unfold outstanding_shared in Es. fold (count is_shared c) in Es.
  pose proof (sumZ_two (holding exclusive_hold) _ _ _ _ _
                (holding_nonneg _) Hij Hi Hj) as Hxx.
  pose proof (sumZ_two (holding upgrade_hold) _ _ _ _ _
                (holding_nonneg _) Hij Hi Hj) as Huu.
  pose proof (sumZ_lookup_le (holding exclusive_hold) _ _ _ (holding_nonneg _) Hi) as Hxi.
  pose proof (sumZ_lookup_le (holding upgrade_hold) _ _ _ (holding_nonneg _) Hj) as Huj.
  pose proof (sumZ_lookup_le (holding shared_hold) _ _ _ (holding_nonneg _) Hj) as Hsj.
  fold (count (holding exclusive_hold) c) in Hxx, Hxi.
  fold (count (holding upgrade_hold) c) in Huu, Huj.
  fold (count (holding shared_hold) c) in Hsj.
  unfold balanced in Hb. unfold holding in *.
  split; intros Hh; rewrite Hh in *.
  - destruct (held agj); [reflexivity | exfalso; lia ..].
  - intros Hh'. rewrite Hh' in *. lia.
Qed.

Lemma holders_exclude_each_other_witness :
  held (mk_agent idle no_hold) <> upgrade_hold.
Proof.
  apply (proj2 (holders_exclude_each_other 3 drain_scenario drained eq_refl
                  (few_agents_in_range 3 drain_scenario
                     ltac:(vm_compute; discriminate))
                  0%nat 1%nat sleeping_upgrader (mk_agent idle no_hold)
                  ltac:(discriminate) eq_refl eq_refl)).
  reflexivity.
Defined.


(** *** The internal mutex *)

Lemma critical_nonneg ag : 0 <= critical ag.
Proof. unfold critical. destruct (in_critical_section (pc_ ag)); lia. Qed.

Lemma wake_blind_critical : wake_blind critical.
Proof.
  intros g [p h]. destruct (wake_cases g (mk_agent p h)) as [-> | [a [E ->]]];
    [reflexivity | cbn in E; subst p; reflexivity].
Qed.

Ltac cs_landed Hlook :=
  match goal with
  | Hstep : Some _ = Some _ |- _ => injection Hstep as <-
  end;
  unfold cs_inv in *; rewrite (count_put _ _ _ _ _ _ _ Hlook);
  cbn [critical in_critical_section pc_ mtx put internal_mutex_ with_internal
       with_state with_notified Z.b2z] in *;
  try lia.

Lemma step_cs c act c' :
  cs_inv c -> step c act = Some c' -> cs_inv c'.
Proof.
  intros Hinv Hstep. unfold cs_inv in Hinv.
  destruct act as [i f | i j | i]; cbn [step] in Hstep;
    destruct (agents c !! i) as [[p h]|] eqn:Hlook; try discriminate;
    pose proof (sumZ_lookup_le critical _ _ _ critical_nonneg Hlook) as Hme;
    fold (count critical c) in Hme;
    cbn [pc_ held] in Hstep.
  - destruct p; try discriminate. destruct (may_call h f); [|discriminate].
    destruct f; cs_landed Hlook.
  - unfold run_agent in Hstep. cbn [pc_ held] in Hstep.
    destruct p as [ | a | | a | a cur | a | a | a | | | r | d | ns ];
      try discriminate.
    + unfold internal_lock in Hstep.
      destruct (internal_mutex_ (mtx c)) eqn:Hint; [discriminate|].
      destruct a; cs_landed Hlook.
    + unfold fetch_or in Hstep. cs_landed Hlook.
    + unfold load in Hstep.
      destruct (acq_cond a (state_ (mtx c))); destruct a; cs_landed Hlook.
    + unfold compare_exchange_strong in Hstep.
      destruct (state_ (mtx c) =? cur); cs_landed Hlook.
    + destruct (internal_mutex_ (mtx c)) eqn:Hint; cs_landed Hlook.
    + unfold internal_lock in Hstep.
      destruct (internal_mutex_ (mtx c)) eqn:Hint; [discriminate|].
      cs_landed Hlook.
    + unfold store in Hstep. cs_landed Hlook.
    + unfold internal_unlock in Hstep.
      destruct (internal_mutex_ (mtx c)) eqn:Hint; cs_landed Hlook.
    + unfold fetch_sub in Hstep. injection Hstep as <-.
      unfold cs_inv in *. rewrite (count_put _ _ _ _ _ _ _ Hlook).
      assert (E : critical (mk_agent (resume (rel_notifications r (state_ (mtx c)))) no_hold) = 0).
      { destruct r; cbn [rel_notifications];
          repeat match goal with
            | |- context [if ?b then _ else _] => destruct b
            end; reflexivity. }
      rewrite E. cbn in *. lia.
    + unfold store in Hstep. cs_landed Hlook.
    + destruct ns as [|n0 ns]; [discriminate|].
      unfold notify in Hstep.
      destruct (deliver_keeps _ _ _ _ Hstep) as (Hm & Hf & _).
      unfold cs_inv in *. rewrite Hm, (Hf _ wake_blind_critical).
      rewrite (count_put _ _ _ _ _ _ _ Hlook).
      destruct ns; cbn in *; lia.
  - destruct p; try discriminate. cs_landed Hlook.
Qed.

Lemma exec_cs sched c c' :
  cs_inv c -> exec sched c = Some c' -> cs_inv c'.
Proof.
  revert c. induction sched as [|act sched IH]; intros c Hinv H.
  - injection H as <-. exact Hinv.
  - rewrite exec_cons in H. destruct (step c act) as [c1|] eqn:Hstep; [|discriminate].
    eauto using step_cs.
Qed.

Lemma cs_initial n : cs_inv (initial n).
Proof.
  unfold cs_inv, count, initial. cbn [agents mtx]. rewrite sumZ_replicate.
  cbn. lia.
Qed.

(** X9.  The internal mutex is a lock.  In every configuration reached from
    the FREE mutex, with no restriction on the schedule: two different
    agents are never both between the acquisition and the release of
    [internal_mutex_], and [internal_mutex_] is taken exactly when some
    agent is. *)
Theorem internal_mutex_excludes :
  forall (n : nat) (sched : list action) (c : config),
    exec sched (initial n) = Some c ->
    (forall (i j : nat) (agi agj : agent),
       agents c !! i = Some agi -> agents c !! j = Some agj ->
       in_critical_section (pc_ agi) = true ->
       in_critical_section (pc_ agj) = true -> i = j)
    /\ (internal_mutex_ (mtx c) = true <->
        exists (i : nat) (ag : agent),
          agents c !! i = Some ag /\ in_critical_section (pc_ ag) = true).
Proof.
  intros n sched c H.
  pose proof (exec_cs _ _ _ (cs_initial n) H) as Hcs. unfold cs_inv in Hcs.
  split.
  - intros i j agi agj Hi Hj Ci Cj.
    destruct (Nat.eq_dec i j) as [E | E]; [exact E | exfalso].
    pose proof (sumZ_two critical _ _ _ _ _ critical_nonneg E Hi Hj) as H2.
    fold (count critical c) in H2.
    assert (Ei : critical agi = 1) by (unfold critical; rewrite Ci; reflexivity).
    assert (Ej : critical agj = 1) by (unfold critical; rewrite Cj; reflexivity).
    destruct (internal_mutex_ (mtx c)); cbn [Z.b2z] in Hcs; lia.
  - split.
    + intros Hint. rewrite Hint in Hcs. cbn [Z.b2z] in Hcs.
      destruct (sumZ_pos_exists critical (agents c)) as (i & ag & Hi & Hne).
      { fold (count critical c). lia. }
      exists i, ag. split; [exact Hi|]. unfold critical in Hne.
      destruct (in_critical_section (pc_ ag)); [reflexivity | contradiction].
    + intros (i & ag & Hi & Ci).
      pose proof (sumZ_lookup_le critical _ _ _ critical_nonneg Hi) as Hle.
      fold (count critical c) in Hle.
      assert (Ei : critical ag = 1) by (unfold critical; rewrite Ci; reflexivity).
      destruct (internal_mutex_ (mtx c)); [reflexivity | cbn [Z.b2z] in Hcs; lia].
Qed.

Lemma internal_mutex_excludes_witness :
  internal_mutex_ (mtx drained) = true <->
  exists (i : nat) (ag : agent),
    agents drained !! i = Some ag /\ in_critical_section (pc_ ag) = true.
Proof. apply (proj2 (internal_mutex_excludes 3 drain_scenario drained eq_refl)). Defined.


(** *** What cannot happen while PENDING or WRITER is set *)

Lemma put_holds i p h m c ag :
  agents c !! i = Some ag -> held ag = h ->
  map held (agents (put i p h m c)) = map held (agents c).
Proof.
  intros Hlook Hh. unfold put. cbn [agents].
  change (map held) with (fmap (M := list) held).
  rewrite list_fmap_insert. cbn [held].
  apply list_insert_id. rewrite list_lookup_fmap, Hlook. cbn. congruence.
Qed.

Lemma wake_held g ag : held (wake g ag) = held ag.
Proof.
  destruct ag as [p h]. destruct (wake_cases g (mk_agent p h)) as [-> | [a [_ ->]]];
    reflexivity.
Qed.

Lemma deliver_holds n j c c' :
  deliver n j c = Some c' ->
  mtx c' = mtx c /\ map held (agents c') = map held (agents c).
Proof.
  destruct n as [g | g]; cbn [deliver].
  - destruct (existsb (sleeping_on g) (agents c)).
    + destruct (agents c !! j) as [w|] eqn:Hj; [|discriminate].
      destruct (sleeping_on g w); [|discriminate].
      intros [= <-]. cbn [mtx agents]. split; [reflexivity|].
      change (map held) with (fmap (M := list) held).
      rewrite list_fmap_insert, wake_held.
      apply list_insert_id. rewrite list_lookup_fmap, Hj. reflexivity.
    + intros [= <-]. auto.
  - intros [= <-]. cbn [mtx agents]. split; [reflexivity|].
    rewrite map_map. apply map_ext. intros ag. apply wake_held.
Qed.

Ltac shared_landed Hlook :=
  match goal with
  | Hstep : Some _ = Some _ |- _ => injection Hstep as <-
  end;
  change (outstanding_shared (put ?i ?p ?h ?m ?c)) with (count is_shared (put i p h m c));
  rewrite (count_put _ _ _ _ _ _ _ Hlook); tally; try lia; balance.

(** X10.  While an upgrade is pending no reader gets in.  From any
    configuration reached from the FREE mutex without exceeding the
    reader ceiling in which PENDING is set, no step of any agent raises
    the number of shared holds. *)
Theorem pending_admits_no_reader :
  forall (n : nat) (sched : list action) (c : config) (act : action) (c' : config),
    exec sched (initial n) = Some c ->
    readers_in_range (initial n) sched ->
    PENDING (state_ (mtx c)) = true ->
    step c act = Some c' ->
    outstanding_shared c' <= outstanding_shared c.
Proof.
  intros n sched c act c' H Hr Hpend Hstep.
  pose proof (reachable_inv _ _ _ H Hr) as Hinv.
  change (outstanding_shared c) with (count is_shared c).
  destruct act as [i f | i j | i]; cbn [step] in Hstep;
    destruct (agents c !! i) as [[p h]|] eqn:Hlook; try discriminate;
    destruct (inv_agent c i _ Hinv Hlook) as (Hme & Hx & Hu & Hp & Hs & Hi & Ht);
    destruct Hinv as [Hb Hc]; cbn [pc_ held] in Hstep.
  - destruct p; try discriminate. destruct (may_call h f); [|discriminate].
    destruct h; shared_landed Hlook.
  - unfold run_agent in Hstep. cbn [pc_ held] in Hstep.
    destruct p as [ | a | | a | a cur | a | a | a | | | r | d | ns ];
      try discriminate.
    + unfold internal_lock in Hstep.
      destruct (internal_mutex_ (mtx c)) eqn:Hint; [discriminate|].
      destruct h; shared_landed Hlook.
    + unfold fetch_or in Hstep. destruct h; shared_landed Hlook.
    + unfold load in Hstep.
      destruct (acq_cond a (state_ (mtx c))); destruct h; shared_landed Hlook.
    + unfold compare_exchange_strong in Hstep.
      destruct Hme as (Ha & Hh & Hcond). cbn [held] in Hh. subst h.
      destruct (Z.eqb_spec (state_ (mtx c)) cur) as [Heq | Hne];
        [symmetry in Heq; subst cur|];
        destruct a; try contradiction;
        cbn [acq_cond acq_new_state acq_hold] in *; shared_landed Hlook.
    + destruct h; shared_landed Hlook.
    + unfold internal_lock in Hstep.
      destruct (internal_mutex_ (mtx c)) eqn:Hint; [discriminate|].
      destruct h; shared_landed Hlook.
    + unfold store in Hstep. destruct h; shared_landed Hlook.
    + unfold internal_unlock in Hstep. destruct h; shared_landed Hlook.
    + unfold fetch_sub in Hstep. destruct h; shared_landed Hlook.
    + unfold store in Hstep.
      destruct d, h; cbn in Hme; try discriminate;
        cbn [dg_value dg_hold] in *; shared_landed Hlook.
    + destruct ns as [|n0 ns]; [discriminate|].
      unfold notify in Hstep.
      destruct (deliver_keeps _ _ _ _ Hstep) as (_ & Hf & _).
      change (outstanding_shared c') with (count is_shared c').
      rewrite (Hf _ wake_blind_shared), (count_put _ _ _ _ _ _ _ Hlook).
      destruct h; tally; lia.
  - destruct p; try discriminate. destruct h; shared_landed Hlook.
Qed.

Lemma pending_admits_no_reader_witness :
  outstanding_shared
    {| mtx := mk (UPGRADE_LOCKED_FLAG + UPGRADE_PENDING_FLAG) false [];
       agents := [ sleeping_upgrader;
                   mk_agent (at_internal_lock acq_lock_shared) no_hold;
                   mk_agent (asleep acq_lock_shared) no_hold ] |}
  <= outstanding_shared drained.
Proof.
  apply (pending_admits_no_reader 3 drain_scenario drained (Call 1 Lock_shared)).
  - reflexivity.
  - apply few_agents_in_range. vm_compute. discriminate.
  - reflexivity.
  - reflexivity.
Defined.


Ltac frozen_landed Hlook :=
  match goal with
  | Hstep : Some _ = Some _ |- _ => injection Hstep as <-
  end;
  split; [reflexivity | exact (put_holds _ _ _ _ _ _ Hlook eq_refl)].

(** X11.  While a writer holds the mutex nobody else changes it.  From any
    configuration reached from the FREE mutex without exceeding the
    reader ceiling in which WRITER is set, a step of an agent other than
    the exclusive holder leaves the state word and everybody's hold as
    they were. *)
Theorem writer_shuts_out_the_others :
  forall (n : nat) (sched : list action) (c : config) (act : action)
         (ag : agent) (c' : config),
    exec sched (initial n) = Some c ->
    readers_in_range (initial n) sched ->
    WRITER (state_ (mtx c)) = true ->
    agents c !! actor act = Some ag ->
    held ag <> exclusive_hold ->
    step c act = Some c' ->
    state_ (mtx c') = state_ (mtx c)
    /\ map held (agents c') = map held (agents c).
Proof.
  intros n sched c act ag c' H Hr HW Hag Hnx Hstep.
  pose proof (reachable_inv _ _ _ H Hr) as Hinv.
  destruct (inv_agent c _ _ Hinv Hag) as (Hme & Hx & Hu & Hp & Hs & Hi & Ht).
  destruct Hinv as [Hb Hc].
  assert (Hnone : held ag = no_hold).
  { destruct ag as [p h]. cbn [held] in *. destruct h; try reflexivity;
      try contradiction; exfalso; tally; destruct (draining p); balance. }
  destruct ag as [p h]. cbn [held] in Hnone. subst h. clear Hnx Hx Hu Hp Hs Hi Ht.
  destruct act as [i f | i j | i]; cbn [actor] in Hag; cbn [step] in Hstep;
    rewrite Hag in Hstep; cbn [pc_ held] in Hstep.
  - destruct p; try discriminate. destruct (may_call no_hold f); [|discriminate].
    frozen_landed Hag.
  - unfold run_agent in Hstep. cbn [pc_ held] in Hstep.
    destruct p as [ | a | | a | a cur | a | a | a | | | r | d | ns ];
      try discriminate; cbn in Hme; try discriminate.
    + unfold internal_lock in Hstep.
      destruct (internal_mutex_ (mtx c)); [discriminate|]. frozen_landed Hag.
    + unfold load in Hstep.
      destruct (acq_cond a (state_ (mtx c))); frozen_landed Hag.
    + unfold compare_exchange_strong in Hstep.
      destruct Hme as (Ha & _ & Hcond).
      destruct (Z.eqb_spec (state_ (mtx c)) cur) as [Heq | Hne].
      * exfalso. symmetry in Heq. subst cur.
        destruct a; try contradiction; cbn [acq_cond] in Hcond; balance.
      * frozen_landed Hag.
    + frozen_landed Hag.
    + unfold internal_lock in Hstep.
      destruct (internal_mutex_ (mtx c)); [discriminate|]. frozen_landed Hag.
    + unfold internal_unlock in Hstep. frozen_landed Hag.
    + destruct r; discriminate.
    + destruct ns as [|n0 ns]; [discriminate|].
      unfold notify in Hstep.
      destruct (deliver_holds _ _ _ _ Hstep) as (Hm & Hh).
      rewrite Hm, Hh. split; [reflexivity|].
      exact (put_holds _ _ _ _ _ _ Hag eq_refl).
  - destruct p; try discriminate. frozen_landed Hag.
Qed.

Lemma writer_shuts_out_the_others_witness :
  state_ (mtx {| mtx := mk WRITE_LOCKED_FLAG false [];
                 agents := [ mk_agent idle exclusive_hold;
                             mk_agent (at_internal_lock acq_lock_shared) no_hold ] |})
  = state_ (mtx {| mtx := mk WRITE_LOCKED_FLAG false [];
                   agents := [ mk_agent idle exclusive_hold;
                               mk_agent idle no_hold ] |})
  /\ map held [ mk_agent idle exclusive_hold;
                mk_agent (at_internal_lock acq_lock_shared) no_hold ]
     = map held [ mk_agent idle exclusive_hold; mk_agent idle no_hold ].
Proof.
  apply (writer_shuts_out_the_others 2
           [Call 0 Lock; Run 0 0; Run 0 0; Run 0 0; Run 0 0]
           {| mtx := mk WRITE_LOCKED_FLAG false [];
              agents := [ mk_agent idle exclusive_hold; mk_agent idle no_hold ] |}
           (Call 1 Lock_shared) (mk_agent idle no_hold)).
  - reflexivity.
  - apply few_agents_in_range. vm_compute. discriminate.
  - reflexivity.
  - reflexivity.
  - discriminate.
  - reflexivity.
Defined.


(** *** Broadcasts on [gate1_] *)

Lemma wake_awake g ag : sleeping_on g ag = false -> wake g ag = ag.
Proof.
  destruct ag as [p h]. unfold sleeping_on, wake. cbn [pc_ held].
  destruct p; try reflexivity. intros ->. reflexivity.
Qed.

Lemma wake_not_sleeping g ag : sleeping_on g (wake g ag) = false.
Proof.
  destruct ag as [p h]. unfold sleeping_on, wake. cbn [pc_ held].
  destruct p; try reflexivity.
  destruct (gate_eqb (gate_of a) g) eqn:E; cbn [pc_]; [reflexivity | exact E].
Qed.

Lemma deliver_lookup_awake n j c c' i ag :
  deliver n j c = Some c' ->
  agents c !! i = Some ag ->
  (forall g, sleeping_on g ag = false) ->
  agents c' !! i = Some ag.
Proof.
  intros H Hi Hawake. destruct n as [g | g]; cbn [deliver] in H.
  - destruct (existsb (sleeping_on g) (agents c)).
    + destruct (agents c !! j) as [w|] eqn:Hj; [|discriminate].
      destruct (sleeping_on g w) eqn:Hw; [|discriminate].
      injection H as <-. cbn [agents].
      rewrite list_lookup_insert_ne; [exact Hi|].
      intros ->. rewrite Hi in Hj. injection Hj as ->.
      rewrite Hawake in Hw. discriminate.
    + injection H as <-. exact Hi.
  - injection H as <-. cbn [agents].
    change (map (wake g) (agents c)) with (wake g <$> agents c).
    rewrite list_lookup_fmap, Hi. cbn. f_equal. apply wake_awake, Hawake.
Qed.

Lemma broadcast_step c i j ag c' :
  agents c !! i = Some ag ->
  will_broadcast (pc_ ag) = true ->
  step c (Run i j) = Some c' ->
  exists ag',
    agents c' !! i = Some ag'
    /\ (will_broadcast (pc_ ag') = true
        \/ (pc_ ag' = idle
            /\ Forall (fun a => sleeping_on gate1_ a = false) (agents c'))).
Proof.
  intros Hlook Hw Hstep.
  assert (Hlt : (i < length (agents c))%nat) by (eapply lookup_lt_Some; eauto).
  cbn [step] in Hstep. rewrite Hlook in Hstep.
  destruct ag as [p h]. unfold run_agent in Hstep. cbn [pc_ held] in Hstep, Hw.
  destruct p as [ | a | | a | a cur | a | a | a | | | r | d | ns ];
    try discriminate.
  - unfold fetch_sub in Hstep. injection Hstep as <-.
    eexists. split; [apply put_lookup, Hlt|]. left. cbn [pc_].
    destruct r; try discriminate; cbn [rel_notifications];
      repeat match goal with
        | |- context [if ?b then _ else _] => destruct b
        end; reflexivity.
  - unfold store in Hstep. injection Hstep as <-.
    eexists. split; [apply put_lookup, Hlt|]. left. reflexivity.
  - destruct ns as [|n0 ns]; [discriminate|].
    unfold notify in Hstep.
    assert (Hme : agents (put i (resume ns) h (with_notified n0 (mtx c)) c) !! i
                  = Some (mk_agent (resume ns) h)) by (apply put_lookup, Hlt).
    assert (Hawake : forall g, sleeping_on g (mk_agent (resume ns) h) = false)
      by (intros g; destruct ns; reflexivity).
    exists (mk_agent (resume ns) h).
    split; [exact (deliver_lookup_awake _ _ _ _ _ _ Hstep Hme Hawake)|].
    destruct ns as [|n1 ns].
    + right. split; [reflexivity|].
      cbn [last] in Hw. destruct n0 as [g | g]; [discriminate|].
      destruct g; [|discriminate].
      cbn [deliver] in Hstep. injection Hstep as <-. cbn [agents].
      rewrite Forall_map. apply Forall_forall. intros a _. apply wake_not_sleeping.
    + left. exact Hw.
Qed.

Lemma broadcast_run (i : nat) (js : list nat) (c c' : config) (ag ag' : agent) :
  agents c !! i = Some ag ->
  will_broadcast (pc_ ag) = true ->
  exec (map (Run i) js) c = Some c' ->
  agents c' !! i = Some ag' ->
  pc_ ag' = idle ->
  Forall (fun a => sleeping_on gate1_ a = false) (agents c').
Proof.
  revert c ag. induction js as [|j js IH]; intros c ag Hlook Hw H Hi Hidle.
  - injection H as <-. rewrite Hlook in Hi. injection Hi as <-.
    rewrite Hidle in Hw. discriminate.
  - cbn [map] in H. rewrite exec_cons in H.
    destruct (step c (Run i j)) as [c1|] eqn:Hstep; [|discriminate].
    destruct (broadcast_step _ _ _ _ _ Hlook Hw Hstep) as (ag1 & H1 & [Hw1 | [Hidle1 Hall]]).
    + exact (IH c1 ag1 H1 Hw1 H Hi Hidle).
    + destruct js as [|j' js].
      * injection H as <-. exact Hall.
      * cbn [map] in H. rewrite exec_cons in H. cbn [step] in H.
        rewrite H1 in H. destruct ag1 as [p1 h1]. cbn [pc_] in Hidle1. subst p1.
        discriminate.
Qed.

(** X12.  Releases wake the readers.  In any configuration, when an agent
    that may do so calls [unlock], [unlock_upgrade], [unique_to_upgrade],
    [unique_to_shared] or the scoped-upgrade exit and performs the
    call's atomic operations one after the other, then at the moment
    the call returns no agent is asleep on [gate1_]: every sleeper in
    [lock_shared] or [lock_upgrade] has been woken. *)
Theorem release_leaves_nobody_asleep_on_gate1 :
  forall (c : config) (i : nat) (f : method) (js : list nat)
         (c' : config) (ag' : agent),
    is_release f = true ->
    f <> Unlock_shared ->
    exec (Call i f :: map (Run i) js) c = Some c' ->
    agents c' !! i = Some ag' ->
    pc_ ag' = idle ->
    Forall (fun a => sleeping_on gate1_ a = false) (agents c').
Proof.
  intros c i f js c' ag' Hf Hne H Hi Hidle.
  rewrite exec_cons in H. cbn [step] in H.
  destruct (agents c !! i) as [[p h]|] eqn:Hlook; [|discriminate].
  cbn [pc_ held] in H. destruct p; try discriminate.
  destruct (may_call h f); [|discriminate].
  assert (Hlt : (i < length (agents c))%nat) by (eapply lookup_lt_Some; eauto).
  apply (broadcast_run i js (put i (entry f) h (mtx c) c) c'
           (mk_agent (entry f) h) ag'); auto.
  - apply put_lookup, Hlt.
  - destruct f; try discriminate Hf; try contradiction; reflexivity.
Qed.

Lemma release_leaves_nobody_asleep_on_gate1_witness :
  Forall (fun a => sleeping_on gate1_ a = false)
    [ mk_agent idle no_hold; mk_agent (at_relock acq_lock_shared) no_hold ].
Proof.
  apply (release_leaves_nobody_asleep_on_gate1
           {| mtx := mk WRITE_LOCKED_FLAG false [];
              agents := [ mk_agent idle exclusive_hold;
                          mk_agent (asleep acq_lock_shared) no_hold ] |}
           0%nat Unlock [0%nat; 0%nat; 0%nat]
           {| mtx := mk 0 false [notify_one gate2_; notify_all gate1_];
              agents := [ mk_agent idle no_hold;
                          mk_agent (at_relock acq_lock_shared) no_hold ] |}
           (mk_agent idle no_hold)).
  - reflexivity.
  - discriminate.
  - reflexivity.
  - reflexivity.
  - reflexivity.
Defined.

(** X13.  A wake-up can be missed on plain [lock] / [unlock] use.  The
    releases notify without taking the internal mutex, so a reader that
    has found WRITER set but has not yet entered its wait misses the
    writer's broadcast: the schedule [late_sleeper], which contains no
    spurious wake-up, ends with the mutex FREE, the writer gone and the
    reader asleep on [gate1_], unable to take a step of its own. *)
Theorem reader_can_sleep_on_a_free_mutex :
  forallb (fun act => negb (is_spurious act)) late_sleeper = true
  /\ exec late_sleeper (initial 2)
     = Some {| mtx := mk 0 false [notify_one gate2_; notify_all gate1_];
               agents := [ mk_agent idle no_hold;
                           mk_agent (asleep acq_lock_shared) no_hold ] |}
  /\ forall act : action,
       actor act = 1%nat -> is_spurious act = false ->
       step {| mtx := mk 0 false [notify_one gate2_; notify_all gate1_];
               agents := [ mk_agent idle no_hold;
                           mk_agent (asleep acq_lock_shared) no_hold ] |} act
       = None.
Proof.
  split; [reflexivity|]. split; [reflexivity|].
  intros [i f | i j | i]; cbn [actor is_spurious]; intros -> Hs;
    [reflexivity | reflexivity | discriminate].
Qed.

(** *** Nobody holds anything exactly when the word is zero *)

Lemma sumZ_zero {A} (f : A -> Z) (l : list A) :
  Forall (fun x => f x = 0) l -> sumZ f l = 0.
Proof.
  induction 1 as [|x l Hx _ IH]; [reflexivity|].
  rewrite sumZ_cons, Hx, IH. reflexivity.
Qed.

(** X14.  No lock is left behind and none is forgotten.  In every
    configuration reached from the FREE mutex without exceeding the
    reader ceiling, the state word is zero exactly when no agent holds
    the mutex in any mode, whatever the agents are in the middle of. *)
Theorem word_is_zero_iff_nobody_holds :
  forall (n : nat) (sched : list action) (c : config),
    exec sched (initial n) = Some c ->
    readers_in_range (initial n) sched ->
    (state_ (mtx c) = 0 <-> Forall (fun ag => held ag = no_hold) (agents c)).
Proof.
  intros n sched c H Hr.
  destruct (reachable_inv _ _ _ H Hr) as [Hb _].
  unfold balanced in Hb.
  destruct Hb as (Hx & Hu & Hp & Hrd & _ & _ & Hs & _).
  split.
  - intros Hz. rewrite Hz in Hs. revert Hs. word_unfold. intros Hs.
    assert (Ex : count is_exclusive c = 0) by lia.
    assert (Eu : count is_upgrade c = 0) by lia.
    assert (Ep : count is_pending c = 0) by lia.
    assert (Er : count is_shared c = 0) by lia.
    apply Forall_lookup. intros i [p h] Hi.
    pose proof (sumZ_lookup_le is_exclusive _ _ _ is_exclusive_nonneg Hi) as Lx.
    pose proof (sumZ_lookup_le is_upgrade _ _ _ is_upgrade_nonneg Hi) as Lu.
    pose proof (sumZ_lookup_le is_pending _ _ _ is_pending_nonneg Hi) as Lp.
    pose proof (sumZ_lookup_le is_shared _ _ _ is_shared_nonneg Hi) as Lr.
    fold (count is_exclusive c) in Lx. fold (count is_upgrade c) in Lu.
    fold (count is_pending c) in Lp. fold (count is_shared c) in Lr.
    rewrite Ex in Lx. rewrite Eu in Lu. rewrite Ep in Lp. rewrite Er in Lr.
    unfold is_exclusive, is_upgrade, is_pending, is_shared in Lx, Lu, Lp, Lr.
    cbn [held pc_] in *.
    destruct h; [reflexivity | lia | destruct (draining p); lia | lia].
  - intros Hall.
    assert (Ex : count is_exclusive c = 0).
    { apply sumZ_zero. eapply Forall_impl; [exact Hall|].
      intros ag E. unfold is_exclusive. rewrite E. reflexivity. }
    assert (Eu : count is_upgrade c = 0).
    { apply sumZ_zero. eapply Forall_impl; [exact Hall|].
      intros ag E. unfold is_upgrade. rewrite E. reflexivity. }
    assert (Ep : count is_pending c = 0).
    { apply sumZ_zero. eapply Forall_impl; [exact Hall|].
      intros ag E. unfold is_pending. rewrite E. reflexivity. }
    assert (Er : count is_shared c = 0).
    { apply sumZ_zero. eapply Forall_impl; [exact Hall|].
      intros ag E. unfold is_shared. rewrite E. reflexivity. }
    rewrite Hs, Ex, Eu, Ep, Er. reflexivity.
Qed.

Lemma word_is_zero_iff_nobody_holds_witness :
  state_ (mtx drained) = 0
  <-> Forall (fun ag => held ag = no_hold) (agents drained).
Proof.
  apply (word_is_zero_iff_nobody_holds 3 drain_scenario drained).
  - reflexivity.
  - apply few_agents_in_range. vm_compute. discriminate.
Defined.

(** *** One agent alone *)

(** X15.  The two readings of the source agree.  An agent alone that
    may call [f], stepping through it one atomic operation at a time,
    ends where the body of [f] read as one sequential function ends:
    when the body returns, idle on the same mutex and holding what [f]
    grants; when the body suspends, asleep on the same gate with the
    same mutex and still holding what it held.  A sole caller is never
    kept waiting for the internal mutex. *)
Theorem solo_run_agrees_with_body :
  forall (f : method) (h : hold) (s : Z) (ns : list notification),
    may_call h f = true ->
    match body f (mk s false ns) with
    | Returned _ m' =>
        solo_call f h (mk s false ns)
        = {| mtx := m'; agents := [mk_agent idle (hold_after f)] |}
    | Blocked (on_gate g) m' =>
        exists a, gate_of a = g
                  /\ solo_call f h (mk s false ns)
                     = {| mtx := m'; agents := [mk_agent (asleep a) h] |}
    | Blocked on_internal_mutex _ => False
    end.
Proof.
  intros f h s ns Hcall.
  destruct f, h; try discriminate Hcall; clear Hcall;
    evaluate;
    repeat match goal with
      | |- context [if ?b then _ else _] => destruct b eqn:?
      end;
    rewrite ?Z.eqb_refl; evaluate;
    try reflexivity;
    try (eexists; split; [|reflexivity]; reflexivity).
Qed.

Lemma solo_run_agrees_with_body_witness :
  match body Lock_shared (mk UPGRADE_LOCKED_FLAG false []) with
  | Returned _ m' =>
      solo_call Lock_shared no_hold (mk UPGRADE_LOCKED_FLAG false [])
      = {| mtx := m'; agents := [mk_agent idle (hold_after Lock_shared)] |}
  | Blocked (on_gate g) m' =>
      exists a, gate_of a = g
                /\ solo_call Lock_shared no_hold (mk UPGRADE_LOCKED_FLAG false [])
                   = {| mtx := m'; agents := [mk_agent (asleep a) no_hold] |}
  | Blocked on_internal_mutex _ => False
  end.
Proof.
  apply (solo_run_agrees_with_body Lock_shared no_hold UPGRADE_LOCKED_FLAG [] eq_refl).
Defined.

(** *** Between the predicate and the wait *)

Lemma step_other_awake c act c' i ag :
  step c act = Some c' ->
  actor act <> i ->
  agents c !! i = Some ag ->
  (forall g, sleeping_on g ag = false) ->
  agents c' !! i = Some ag.
Proof.
  intros H Hne Hi Haw.
  assert (Hput : forall k p h m, k <> i -> agents (put k p h m c) !! i = Some ag).
  { intros k p h m Hk. unfold put. cbn [agents].
    rewrite list_lookup_insert_ne by exact Hk. exact Hi. }
  destruct act as [k f | k j | k]; cbn [step actor] in H, Hne;
    destruct (agents c !! k) as [[p h]|]; try discriminate; cbn [pc_ held] in H.
  - destruct p; try discriminate. destruct (may_call h f); [|discriminate].
    injection H as <-. apply Hput, Hne.
  - unfold run_agent in H. cbn [pc_ held] in H.
    destruct p as [ | a | | a | a cur | a | a | a | | | r | d | ns ];
      try discriminate;
      unfold internal_lock, fetch_or, load, compare_exchange_strong, store,
        internal_unlock, fetch_sub, notify in H;
      repeat match type of H with
        | context [if ?b then _ else _] => destruct b
        end;
      try discriminate; try (injection H as <-; apply Hput, Hne).
    destruct ns as [|n ns]; [discriminate|].
    exact (deliver_lookup_awake _ _ _ _ _ _ H (Hput _ _ _ _ Hne) Haw).
  - destruct p; try discriminate. injection H as <-. apply Hput, Hne.
Qed.

Lemma exec_others_awake sched c c' i ag :
  exec sched c = Some c' ->
  Forall (fun act => actor act <> i) sched ->
  agents c !! i = Some ag ->
  (forall g, sleeping_on g ag = false) ->
  agents c' !! i = Some ag.
Proof.
  revert c. induction sched as [|act sched IH]; intros c H Hall Hi Haw.
  - injection H as <-. exact Hi.
  - rewrite exec_cons in H. destruct (step c act) as [c1|] eqn:Hstep; [|discriminate].
    inversion Hall as [|? ? Hact Hrest]; subst.
    exact (IH c1 H Hrest (step_other_awake _ _ _ _ _ Hstep Hact Hi Haw) Haw).
Qed.

(** X21.  The decision to sleep is not revised.  Once an acquirer has
    found its wait predicate false, whatever the other threads do
    before it enters the wait (the releases and downgrades run without
    the internal mutex), its next step puts it to sleep on its gate:
    it does not look at [state_] again, and none of the notifications
    sent in between reaches it. *)
Theorem sleep_decision_is_not_revised :
  forall (c : config) (i : nat) (a : acquirer) (h : hold)
         (sched : list action) (c1 : config) (j : nat),
    agents c !! i = Some (mk_agent (at_wait a) h) ->
    Forall (fun act => actor act <> i) sched ->
    exec sched c = Some c1 ->
    exists c' : config,
      exec (sched ++ [Run i j]) c = Some c'
      /\ agents c' !! i = Some (mk_agent (asleep a) h)
      /\ state_ (mtx c') = state_ (mtx c1)
      /\ notified (mtx c') = notified (mtx c1).
Proof.
  intros c i a h sched c1 j Hi Hall H.
  assert (H1 : agents c1 !! i = Some (mk_agent (at_wait a) h)).
  { apply (exec_others_awake sched c c1 i _ H Hall Hi). intros g. reflexivity. }
  assert (Hlt : (i < length (agents c1))%nat) by (eapply lookup_lt_Some; eauto).
  exists (put i (asleep a) h (with_internal false (mtx c1)) c1).
  split; [|split; [apply put_lookup, Hlt | split; reflexivity]].
  rewrite (exec_app _ _ _ _ H), exec_cons. cbn [step]. rewrite H1. reflexivity.
Qed.

Lemma sleep_decision_is_not_revised_witness :
  exists c' : config,
    exec ([Call 0 Unlock; Run 0 0; Run 0 0; Run 0 0] ++ [Run 1 0])
      {| mtx := mk WRITE_LOCKED_FLAG true [];
         agents := [ mk_agent idle exclusive_hold;
                     mk_agent (at_wait acq_lock_shared) no_hold ] |}
    = Some c'
    /\ agents c' !! 1%nat = Some (mk_agent (asleep acq_lock_shared) no_hold)
    /\ state_ (mtx c') = 0
    /\ notified (mtx c') = [notify_one gate2_; notify_all gate1_].
Proof.
  apply (sleep_decision_is_not_revised
           {| mtx := mk WRITE_LOCKED_FLAG true [];
              agents := [ mk_agent idle exclusive_hold;
                          mk_agent (at_wait acq_lock_shared) no_hold ] |}
           1%nat acq_lock_shared no_hold
           [Call 0 Unlock; Run 0 0; Run 0 0; Run 0 0]
           {| mtx := mk 0 true [notify_one gate2_; notify_all gate1_];
              agents := [ mk_agent idle no_hold;
                          mk_agent (at_wait acq_lock_shared) no_hold ] |}
           0%nat).
  - reflexivity.
  - repeat constructor; discriminate.
  - reflexivity.
Defined.

End sched_more.

(* ===================================================================== *)
(** ** Between the load and the compare-exchange                         *)
(* ===================================================================== *)

Module window_facts.
Import upgrade_mutex sched sched_inv design coverage sched_facts sched_more.

(** One evaluation of the wait predicate of [lock], [lock_shared] or
    [lock_upgrade] while other agents run between its [load] and its
    [compare_exchange_strong]: the caller acquires exactly when the word
    it loaded passes the test and is still in place at the
    compare-exchange; when the compare-exchange is lost the predicate is
    false and the caller is about to wait; when the test fails the
    caller goes to sleep. *)
Lemma pred_then_cas (a : acquirer) (c : config) (i j j' : nat) (h : hold)
    (others : list action) (c1 : config) :
  a <> acq_upgrade_to_unique ->
  agents c !! i = Some (mk_agent (at_pred a) h) ->
  Forall (fun act => actor act <> i) others ->
  exec (Run i j :: others) c = Some c1 ->
  step c1 (Run i j')
  = Some (if acq_cond a (state_ (mtx c))
          then if state_ (mtx c1) =? state_ (mtx c)
               then put i at_internal_unlock (acq_hold a)
                      (with_state (acq_new_state a (state_ (mtx c))) (mtx c1)) c1
               else put i (at_wait a) h (mtx c1) c1
          else put i (asleep a) h (with_internal false (mtx c1)) c1).
Proof.
  intros Ha Hi Hall H.
  assert (Hlt : (i < length (agents c))%nat) by (eapply lookup_lt_Some; eauto).
  rewrite exec_cons in H. cbn [step] in H. rewrite Hi in H.
  unfold run_agent, load in H. cbn [pc_ held] in H.
  destruct (acq_cond a (state_ (mtx c))) eqn:Hcond.
  - assert (Hme : agents c1 !! i = Some (mk_agent (at_cas a (state_ (mtx c))) h)).
    { destruct a; try contradiction;
        (eapply (exec_others_awake others _ c1 i _ H Hall);
         [apply put_lookup, Hlt | intros g; reflexivity]). }
    cbn [step]. rewrite Hme. unfold run_agent, compare_exchange_strong.
    cbn [pc_ held]. destruct (state_ (mtx c1) =? state_ (mtx c)); reflexivity.
  - assert (Hme : agents c1 !! i = Some (mk_agent (at_wait a) h)).
    { eapply (exec_others_awake others _ c1 i _ H Hall);
        [apply put_lookup, Hlt | intros g; reflexivity]. }
    cbn [step]. rewrite Hme. reflexivity.
Qed.


(** Apart from the compare-exchange, no step of a blocking acquirer
    writes the state word. *)
Lemma acquirer_steps_keep_the_word (a : acquirer) (c : config) (i j : nat)
    (p : pc) (h : hold) (c' : config) :
  agents c !! i = Some (mk_agent p h) ->
  p = at_internal_lock a \/ p = at_relock a \/ p = at_pred a
  \/ p = at_wait a \/ p = at_internal_unlock ->
  step c (Run i j) = Some c' ->
  state_ (mtx c') = state_ (mtx c).
Proof.
  intros Hi Hp H. cbn [step] in H. rewrite Hi in H.
  unfold run_agent, internal_lock, load, internal_unlock in H. cbn [pc_ held] in H.
  destruct Hp as [-> | [-> | [-> | [-> | ->]]]];
    repeat match type of H with
      | context [if ?b then _ else _] => destruct b
      end;
    try discriminate; injection H as <-; reflexivity.
Qed.



(** X1.  [lock_upgrade] (lines 312-324).  Each evaluation of its
    predicate decides on the word [s0] it loads.  Whatever the other
    threads do between the load and the compare-exchange: the caller
    sets UPGRADER, and nothing else, exactly when neither WRITER nor
    UPGRADER is set in [s0] and the compare-exchange finds [s0] still in
    place; it then holds the upgradeable lock.  Otherwise (a flag set in
    [s0], or the compare-exchange lost to a concurrent change) it
    changes nothing and is about to sleep or asleep on [gate1_].  No
    other step of [lock_upgrade] writes the word, and the deciding
    step sends no notification.  A call during which nobody else runs,
    started with the internal mutex free, returns exactly when neither
    WRITER nor UPGRADER is set and is otherwise left asleep on [gate1_]
    with the mutex unchanged. *)
Theorem lock_upgrade_sets_upgrader_iff_cas_wins :
  forall (c : config) (i j j' : nat) (h : hold) (others : list action)
         (c1 : config) (s0 : Z) (ns : list notification),
    agents c !! i = Some (mk_agent (at_pred acq_lock_upgrade) h) ->
    state_ (mtx c) = s0 ->
    0 <= s0 < 2 ^ 32 ->
    Forall (fun act => actor act <> i) others ->
    exec (Run i j :: others) c = Some c1 ->
    (exists c' : config,
       step c1 (Run i j') = Some c'
       /\ notified (mtx c') = notified (mtx c1)
       /\ (WRITER s0 = false -> UPGRADER s0 = false -> state_ (mtx c1) = s0 ->
             decode (state_ (mtx c'))
             = {| f_WRITER := false; f_UPGRADER := true;
                  f_PENDING := PENDING s0; f_READERS := READERS s0 |}
             /\ agents c' !! i = Some (mk_agent at_internal_unlock upgrade_hold))
       /\ (WRITER s0 = true \/ UPGRADER s0 = true \/ state_ (mtx c1) <> s0 ->
             state_ (mtx c') = state_ (mtx c1)
             /\ exists p : pc,
                  agents c' !! i = Some (mk_agent p h)
                  /\ (p = at_wait acq_lock_upgrade \/ p = asleep acq_lock_upgrade)))
    /\ (WRITER s0 = false -> UPGRADER s0 = false ->
          lock_upgrade (mk s0 false ns)
          = Returned tt (mk (s0 + UPGRADE_LOCKED_FLAG) false ns))
    /\ (WRITER s0 = true \/ UPGRADER s0 = true ->
          lock_upgrade (mk s0 false ns) = Blocked (on_gate gate1_) (mk s0 false ns))
    /\ forall (c0 : config) (p : pc) (h0 : hold) (j0 : nat) (c0' : config),
         agents c0 !! i = Some (mk_agent p h0) ->
         p = at_internal_lock acq_lock_upgrade \/ p = at_relock acq_lock_upgrade
         \/ p = at_pred acq_lock_upgrade \/ p = at_wait acq_lock_upgrade
         \/ p = at_internal_unlock ->
         step c0 (Run i j0) = Some c0' ->
         state_ (mtx c0') = state_ (mtx c0).
Proof.
  intros c i j j' h others c1 s0 ns Hi Hs0 Hrange Hall H.
  split; [|split; [|split]].
  4: { intros c0 p h0 j0 c0'. apply acquirer_steps_keep_the_word. }
  2: { intros HW HU.
       exact (proj1 (proj1 (call_more.lock_upgrade_alone_sets_only_upgrader s0 ns Hrange)
                       HW HU)). }
  2: { exact (proj2 (call_more.lock_upgrade_alone_sets_only_upgrader s0 ns Hrange)). }
  assert (Hlt : (i < length (agents c1))%nat).
  { rewrite (exec_length _ _ _ H). eapply lookup_lt_Some; eauto. }
  pose proof (pred_then_cas acq_lock_upgrade c i j j' h others c1
                ltac:(discriminate) Hi Hall H) as Hstep.
  rewrite Hs0 in Hstep. cbn [acq_cond acq_hold acq_new_state] in Hstep.
  assert (Hcond : lock_upgrade_cond s0 = negb (WRITER s0) && negb (UPGRADER s0)).
  { unfold lock_upgrade_cond, WRITER, UPGRADER. rewrite !negb_involutive. reflexivity. }
  rewrite Hcond in Hstep.
  eexists. split; [exact Hstep|]. split; [|split].
  - destruct (negb (WRITER s0) && negb (UPGRADER s0));
      [destruct (state_ (mtx c1) =? s0)|]; reflexivity.
  - intros HW HU Hsame. rewrite HW, HU, Hsame, Z.eqb_refl. cbn [negb andb].
    unfold put at 1. cbn [mtx state_ with_state].
    unfold lock_upgrade_new_state.
    assert (WRITER (Z.lor s0 UPGRADE_LOCKED_FLAG) = false) by word_solve.
    assert (UPGRADER (Z.lor s0 UPGRADE_LOCKED_FLAG) = true) by word_solve.
    assert (PENDING (Z.lor s0 UPGRADE_LOCKED_FLAG) = PENDING s0) by word_solve.
    assert (READERS (Z.lor s0 UPGRADE_LOCKED_FLAG) = READERS s0) by word_solve.
    split; [unfold decode; congruence | apply put_lookup, Hlt].
  - intros Hno.
    destruct (negb (WRITER s0) && negb (UPGRADER s0)) eqn:Hadm.
    + destruct (Z.eqb_spec (state_ (mtx c1)) s0) as [E | _].
      * exfalso. apply andb_prop in Hadm. destruct Hadm as [HW HU].
        apply negb_true_iff in HW, HU. destruct Hno as [E' | [E' | E']];
          congruence.
      * split; [reflexivity|]. eexists. split; [apply put_lookup, Hlt | left; reflexivity].
    + split; [reflexivity|]. eexists. split; [apply put_lookup, Hlt | right; reflexivity].
Qed.

Lemma lock_upgrade_sets_upgrader_iff_cas_wins_witness :
  exists c' : config,
    step {| mtx := mk 0 true [];
            agents := [ mk_agent (at_notify [notify_one gate2_]) no_hold;
                        mk_agent (at_cas acq_lock_upgrade 1) no_hold ] |} (Run 1 0)
    = Some c'
    /\ state_ (mtx c') = 0
    /\ exists p : pc,
         agents c' !! 1%nat = Some (mk_agent p no_hold)
         /\ (p = at_wait acq_lock_upgrade \/ p = asleep acq_lock_upgrade).
Proof.
  destruct (lock_upgrade_sets_upgrader_iff_cas_wins
              {| mtx := mk 1 true [];
                 agents := [ mk_agent idle shared_hold;
                             mk_agent (at_pred acq_lock_upgrade) no_hold ] |}
              1%nat 0%nat 0%nat no_hold [Call 0 Unlock_shared; Run 0 0]
              {| mtx := mk 0 true [];
                 agents := [ mk_agent (at_notify [notify_one gate2_]) no_hold;
                             mk_agent (at_cas acq_lock_upgrade 1) no_hold ] |}
              1 [])
    as ((c' & Hstep & _ & _ & Hlost) & _);
    [ reflexivity | reflexivity
    | vm_compute; split; [discriminate | reflexivity]
    | repeat constructor; discriminate
    | reflexivity | ].
  exists c'. split; [exact Hstep|].
  apply Hlost. right. right. discriminate.
Defined.

(** X22.  A compare-exchange lost to a release puts the acquirer to
    sleep in front of an open door.  [unlock_shared] changes [state_]
    without the internal mutex and never notifies [gate1_]; when it runs
    between the load and the compare-exchange of a [lock_shared] or a
    [lock_upgrade], the compare-exchange fails, the predicate returns
    false and the caller goes to sleep on [gate1_], although the word
    then in place admits it.  Neither schedule contains a spurious
    wake-up, and in both final configurations the sleeper cannot move. *)
Theorem lost_compare_exchange_sleeps_on_an_open_mutex :
  forallb (fun act => negb (is_spurious act)) (cas_loser_shared ++ cas_loser_upgrade)
  = true
  /\ exec cas_loser_shared (initial 3)
     = Some {| mtx := mk UPGRADE_LOCKED_FLAG false [];
               agents := [ mk_agent idle upgrade_hold; mk_agent idle no_hold;
                           mk_agent (asleep acq_lock_shared) no_hold ] |}
  /\ lock_shared_cond UPGRADE_LOCKED_FLAG = true
  /\ exec cas_loser_upgrade (initial 2)
     = Some {| mtx := mk 0 false [notify_one gate2_];
               agents := [ mk_agent idle no_hold;
                           mk_agent (asleep acq_lock_upgrade) no_hold ] |}
  /\ lock_upgrade_cond 0 = true
  /\ forall (c : config) (i : nat) (a : acquirer) (h : hold) (act : action),
       agents c !! i = Some (mk_agent (asleep a) h) ->
       actor act = i -> is_spurious act = false ->
       step c act = None.
Proof.
  repeat (split; [reflexivity|]).
  intros c i a h [k f | k j | k] Hi; cbn [actor is_spurious]; intros -> Hs;
    try discriminate; cbn [step]; rewrite Hi; reflexivity.
Qed.

End window_facts.

(* ===================================================================== *)
(** ** More on the lock guards: scopes, transitions, move assignment     *)
(* ===================================================================== *)

Module guard_more.
Import upgrade_mutex guards design coverage.

Lemma invoke_at (p : nat) (f : method) (w : world) (m : upgrade_mutex.t) :
  heap w !! p = Some m ->
  invoke p f w
  = match body f m with
    | Returned _ m' =>
        Done tt {| heap := <[p := m']> (heap w); called := called w ++ [(p, f)] |}
    | Blocked wp m' =>
        Suspended wp {| heap := <[p := m']> (heap w); called := called w ++ [(p, f)] |}
    end.
Proof. intros H. unfold invoke. rewrite H. reflexivity. Qed.

Lemma invoke_again (p : nat) (f : method) (h : gmap nat upgrade_mutex.t)
    (m : upgrade_mutex.t) (l : list (nat * method)) :
  invoke p f {| heap := <[p := m]> h; called := l |}
  = match body f m with
    | Returned _ m' =>
        Done tt {| heap := <[p := m']> h; called := l ++ [(p, f)] |}
    | Blocked wp m' =>
        Suspended wp {| heap := <[p := m']> h; called := l ++ [(p, f)] |}
    end.
Proof.
  rewrite (invoke_at p f _ m) by apply lookup_insert_eq.
  cbn [heap called].
  destruct (body f m) as [[] m' | wp m']; rewrite insert_insert_eq; reflexivity.
Qed.

Lemma lock_runs_on_zero (ns : list notification) :
  lock (mk 0 false ns) = Returned tt (mk WRITE_LOCKED_FLAG false ns).
Proof. reflexivity. Qed.

Lemma unlock_runs (s : Z) (b : bool) (ns : list notification) :
  unlock (mk s b ns)
  = Returned tt (mk (uint32 (s - WRITE_LOCKED_FLAG)) b
                   ((ns ++ [notify_one gate2_]) ++ [notify_all gate1_])).
Proof. reflexivity. Qed.

Lemma unique_to_upgrade_runs (s : Z) (b : bool) (ns : list notification) :
  unique_to_upgrade (mk s b ns)
  = Returned tt (mk UPGRADE_LOCKED_FLAG b (ns ++ [notify_all gate1_])).
Proof. reflexivity. Qed.

Lemma unique_to_shared_runs (s : Z) (b : bool) (ns : list notification) :
  unique_to_shared (mk s b ns)
  = Returned tt (mk ONE_READER b (ns ++ [notify_all gate1_])).
Proof. reflexivity. Qed.

Lemma READERS_lor_UPGRADE (s : Z) :
  0 <= s < 2 ^ 32 -> READERS (Z.lor s UPGRADE_LOCKED_FLAG) = READERS s.
Proof. intros Hs. word_solve. Qed.

Lemma release_returns (f : method) (m : t) :
  is_release f = true -> exists m', body f m = Returned tt m'.
Proof.
  intros Hf. destruct m as [s b ns].
  destruct f; try discriminate Hf; cbn [body]; try (eexists; reflexivity).
  - rewrite call_more.unlock_shared_runs. eexists; reflexivity.
  - rewrite call_more.unlock_upgrade_runs. eexists; reflexivity.
Qed.

(** The steps of a guard program: unfold the guard operations down to
    [invoke], and run each call on the mutex the previous one left. *)
Ltac guard_unfold :=
  unfold scoped, upgrade_downgrade_cycle, downgrade_to_shared, scoped_upgrade_in_scope,
    unique_lock_ctor, unique_lock_dtor, unique_lock_from_upgrade,
    shared_lock_ctor, shared_lock_dtor, shared_lock_from_unique,
    upgrade_lock_ctor, upgrade_lock_dtor, upgrade_lock_from_unique,
    scoped_upgrade_ctor, scoped_upgrade_dtor, construct_on, transfer.

Ltac guard_cbn :=
  cbn [and_then move_ctor move_assign invoke_if_owned ref_ctor p_mutex_ su_p_mutex_
         mutex body fst snd negb andb].

(** X16.  A guard's scope is a round trip.  On a mutex that admits the
    acquisition, constructing a [unique_lock], a [shared_lock] or an
    [upgrade_lock] (lines 141, 163, 185) and destroying it (lines
    142-146, 164-168, 186-190) completes, calls the acquisition and then
    the matching release on that mutex and nothing else, and leaves the
    mutex's state word as it was. *)
Theorem guard_scope_round_trip :
  forall (p : nat) (w : world) (s : Z) (ns : list notification),
    heap w !! p = Some (mk s false ns) ->
    0 <= s < 2 ^ 32 ->
    (s = 0 ->
       exists ns',
         scoped unique_lock_ctor unique_lock_dtor p w
         = Done tt {| heap := <[p := mk s false ns']> (heap w);
                      called := (called w ++ [(p, Lock)]) ++ [(p, Unlock)] |})
    /\ (WRITER s = false -> PENDING s = false -> READERS s < READER_COUNT_MASK ->
          exists ns',
            scoped shared_lock_ctor shared_lock_dtor p w
            = Done tt {| heap := <[p := mk s false ns']> (heap w);
                         called := (called w ++ [(p, Lock_shared)])
                                   ++ [(p, Unlock_shared)] |})
    /\ (WRITER s = false -> UPGRADER s = false ->
          exists ns',
            scoped upgrade_lock_ctor upgrade_lock_dtor p w
            = Done tt {| heap := <[p := mk s false ns']> (heap w);
                         called := (called w ++ [(p, Lock_upgrade)])
                                   ++ [(p, Unlock_upgrade)] |}).
Proof.
  intros p w s ns Hp Hs. split; [|split].
  - intros ->. eexists. guard_unfold.
    rewrite (invoke_at _ _ _ _ Hp). guard_cbn. rewrite lock_runs_on_zero. guard_cbn.
    rewrite invoke_again. guard_cbn. rewrite unlock_runs. reflexivity.
  - intros HW HP HR. eexists. guard_unfold.
    rewrite (invoke_at _ _ _ _ Hp). guard_cbn.
    rewrite call_facts.lock_shared_effect, HW, HP. guard_cbn.
    rewrite invoke_again. guard_cbn. rewrite call_more.unlock_shared_runs.
    assert (E : uint32 (uint32 (s + 1) - ONE_READER) = s) by word_solve.
    rewrite E. reflexivity.
  - intros HW HU. eexists. guard_unfold.
    rewrite (invoke_at _ _ _ _ Hp). guard_cbn.
    rewrite call_more.lock_upgrade_runs, HW, HU. guard_cbn.
    rewrite invoke_again. guard_cbn. rewrite call_more.unlock_upgrade_runs.
    assert (E : uint32 (Z.lor s UPGRADE_LOCKED_FLAG - UPGRADE_LOCKED_FLAG) = s)
      by word_solve.
    rewrite E. reflexivity.
Qed.

Lemma guard_scope_round_trip_witness :
  exists ns',
    scoped shared_lock_ctor shared_lock_dtor 7
      {| heap := {[ 7%nat := mk UPGRADE_LOCKED_FLAG false [] ]}; called := [] |}
    = Done tt {| heap := <[7%nat := mk UPGRADE_LOCKED_FLAG false ns']>
                           {[ 7%nat := mk UPGRADE_LOCKED_FLAG false [] ]};
                 called := ([] ++ [(7%nat, Lock_shared)]) ++ [(7%nat, Unlock_shared)] |}.
Proof.
  refine (proj1 (proj2 (guard_scope_round_trip 7
           {| heap := {[ 7%nat := mk UPGRADE_LOCKED_FLAG false [] ]}; called := [] |}
           UPGRADE_LOCKED_FLAG [] _ _)) _ _ _);
    [ apply lookup_singleton_eq
    | vm_compute; split; [discriminate | reflexivity]
    | reflexivity .. ].
Defined.

(** X17.  [test_upgrade_downgrade_cycle] (tests, lines 110-131) on a mutex
    that is neither write- nor upgrade-locked.  Without readers the
    whole function completes: the mutex sees exactly [lock_upgrade,
    upgrade_to_unique, unique_to_upgrade, unlock_upgrade], once each and
    in this order (the temporary and the moved-from [x_lock] unlock
    nothing), [u_lock] owns the mutex and [x_lock] owns nothing when the
    assertions run, and the state word ends at zero.  With a reader
    present the function is left inside [upgrade_to_unique], asleep on
    [gate2_], with UPGRADER and PENDING set. *)
Theorem upgrade_downgrade_cycle_runs :
  forall (p : nat) (w : world) (s : Z) (ns : list notification),
    heap w !! p = Some (mk s false ns) ->
    0 <= s < 2 ^ 32 ->
    WRITER s = false -> UPGRADER s = false ->
    (READERS s = 0 ->
       exists ns',
         upgrade_downgrade_cycle p w
         = Done ({| p_mutex_ := Some p |}, {| p_mutex_ := None |})
             {| heap := <[p := mk 0 false ns']> (heap w);
                called := (((called w ++ [(p, Lock_upgrade)])
                            ++ [(p, Upgrade_to_unique)])
                           ++ [(p, Unique_to_upgrade)])
                          ++ [(p, Unlock_upgrade)] |})
    /\ (READERS s <> 0 ->
          upgrade_downgrade_cycle p w
          = Suspended (on_gate gate2_)
              {| heap := <[p := mk (Z.lor (Z.lor s UPGRADE_LOCKED_FLAG)
                                      UPGRADE_PENDING_FLAG) false ns]> (heap w);
                 called := (called w ++ [(p, Lock_upgrade)])
                           ++ [(p, Upgrade_to_unique)] |}).
Proof.
  intros p w s ns Hp Hs HW HU. split; intros HR.
  - eexists. guard_unfold.
    rewrite (invoke_at _ _ _ _ Hp). guard_cbn.
    rewrite call_more.lock_upgrade_runs, HW, HU. guard_cbn.
    rewrite invoke_again. guard_cbn.
    rewrite call_facts.upgrade_to_unique_runs, (READERS_lor_UPGRADE s Hs), HR.
    cbn [Z.eqb]. guard_cbn.
    rewrite invoke_again. guard_cbn. rewrite unique_to_upgrade_runs. guard_cbn.
    rewrite invoke_again. guard_cbn. rewrite call_more.unlock_upgrade_runs.
    reflexivity.
  - guard_unfold.
    rewrite (invoke_at _ _ _ _ Hp). guard_cbn.
    rewrite call_more.lock_upgrade_runs, HW, HU. guard_cbn.
    rewrite invoke_again. guard_cbn.
    rewrite call_facts.upgrade_to_unique_runs, (READERS_lor_UPGRADE s Hs).
    destruct (Z.eqb_spec (READERS s) 0) as [E | _]; [contradiction | reflexivity].
Qed.

Lemma upgrade_downgrade_cycle_runs_witness :
  upgrade_downgrade_cycle 3
    {| heap := {[ 3%nat := mk 2 false [] ]}; called := [] |}
  = Suspended (on_gate gate2_)
      {| heap := <[3%nat := mk (Z.lor (Z.lor 2 UPGRADE_LOCKED_FLAG)
                                 UPGRADE_PENDING_FLAG) false []]>
                   {[ 3%nat := mk 2 false [] ]};
         called := ([] ++ [(3%nat, Lock_upgrade)]) ++ [(3%nat, Upgrade_to_unique)] |}.
Proof.
  refine (proj2 (upgrade_downgrade_cycle_runs 3
           {| heap := {[ 3%nat := mk 2 false [] ]}; called := [] |} 2 [] _ _ _ _) _);
    [ apply lookup_singleton_eq
    | vm_compute; split; [discriminate | reflexivity]
    | reflexivity | reflexivity | vm_compute; discriminate ].
Defined.

(** X18.  [test_downgrade_to_shared] (tests, lines 133-151).  On a free mutex
    the function completes: the mutex sees [lock, unique_to_shared,
    lock_shared] and then one [unlock_shared] for each of the two shared
    guards, while the moved-from [unique_lock] unlocks nothing; the
    state word ends at zero.  On a mutex that is not free it is left
    inside [lock], asleep on [gate2_], with the word unchanged. *)
Theorem downgrade_to_shared_runs :
  forall (p : nat) (w : world) (s : Z) (ns : list notification),
    heap w !! p = Some (mk s false ns) ->
    (s = 0 ->
       exists ns',
         downgrade_to_shared p w
         = Done tt
             {| heap := <[p := mk 0 false ns']> (heap w);
                called := ((((called w ++ [(p, Lock)])
                             ++ [(p, Unique_to_shared)])
                            ++ [(p, Lock_shared)])
                           ++ [(p, Unlock_shared)])
                          ++ [(p, Unlock_shared)] |})
    /\ (s <> 0 ->
          downgrade_to_shared p w
          = Suspended (on_gate gate2_)
              {| heap := <[p := mk s false ns]> (heap w);
                 called := called w ++ [(p, Lock)] |}).
Proof.
  intros p w s ns Hp. split; intros Hs.
  - subst s. eexists. guard_unfold.
    rewrite (invoke_at _ _ _ _ Hp). guard_cbn. rewrite lock_runs_on_zero. guard_cbn.
    rewrite invoke_again. guard_cbn. rewrite unique_to_shared_runs. guard_cbn.
    rewrite invoke_again. guard_cbn. rewrite call_facts.lock_shared_effect.
    change (negb (WRITER ONE_READER) && negb (PENDING ONE_READER)) with true.
    cbv iota. guard_cbn.
    rewrite invoke_again. guard_cbn. rewrite call_more.unlock_shared_runs. guard_cbn.
    rewrite invoke_again. guard_cbn. rewrite call_more.unlock_shared_runs.
    reflexivity.
  - guard_unfold.
    rewrite (invoke_at _ _ _ _ Hp). guard_cbn.
    rewrite (call_facts.lock_sleeps_on_nonzero (mk s false ns) Hs eq_refl).
    reflexivity.
Qed.

Lemma downgrade_to_shared_runs_witness :
  downgrade_to_shared 3
    {| heap := {[ 3%nat := mk 1 false [] ]}; called := [] |}
  = Suspended (on_gate gate2_)
      {| heap := <[3%nat := mk 1 false []]> {[ 3%nat := mk 1 false [] ]};
         called := [] ++ [(3%nat, Lock)] |}.
Proof.
  refine (proj2 (downgrade_to_shared_runs 3
           {| heap := {[ 3%nat := mk 1 false [] ]}; called := [] |} 1 [] _) _);
    [ apply lookup_singleton_eq | discriminate ].
Defined.

(** X19.  [test_scoped_upgrade] (tests, lines 153-171) on a mutex that is
    neither write- nor upgrade-locked.  Without readers it completes:
    the mutex sees [lock_upgrade, scoped_upgrade_entry,
    scoped_upgrade_exit, unlock_upgrade] in this order and the state
    word ends at zero.  With a reader present the constructor of
    [scoped_upgrade] does not return: it is left asleep on [gate2_] with
    UPGRADER and PENDING set. *)
Theorem scoped_upgrade_in_scope_runs :
  forall (p : nat) (w : world) (s : Z) (ns : list notification),
    heap w !! p = Some (mk s false ns) ->
    0 <= s < 2 ^ 32 ->
    WRITER s = false -> UPGRADER s = false ->
    (READERS s = 0 ->
       exists ns',
         scoped_upgrade_in_scope p w
         = Done tt
             {| heap := <[p := mk 0 false ns']> (heap w);
                called := (((called w ++ [(p, Lock_upgrade)])
                            ++ [(p, Scoped_upgrade_entry)])
                           ++ [(p, Scoped_upgrade_exit)])
                          ++ [(p, Unlock_upgrade)] |})
    /\ (READERS s <> 0 ->
          scoped_upgrade_in_scope p w
          = Suspended (on_gate gate2_)
              {| heap := <[p := mk (Z.lor (Z.lor s UPGRADE_LOCKED_FLAG)
                                      UPGRADE_PENDING_FLAG) false ns]> (heap w);
                 called := (called w ++ [(p, Lock_upgrade)])
                           ++ [(p, Scoped_upgrade_entry)] |}).
Proof.
  intros p w s ns Hp Hs HW HU. split; intros HR.
  - eexists. guard_unfold.
    rewrite (invoke_at _ _ _ _ Hp). guard_cbn.
    rewrite call_more.lock_upgrade_runs, HW, HU. guard_cbn.
    rewrite invoke_again. guard_cbn. unfold scoped_upgrade_entry.
    rewrite call_facts.upgrade_to_unique_runs, (READERS_lor_UPGRADE s Hs), HR.
    cbn [Z.eqb]. guard_cbn.
    rewrite invoke_again. guard_cbn. unfold scoped_upgrade_exit.
    rewrite unique_to_upgrade_runs. guard_cbn.
    rewrite invoke_again. guard_cbn. rewrite call_more.unlock_upgrade_runs.
    reflexivity.
  - guard_unfold.
    rewrite (invoke_at _ _ _ _ Hp). guard_cbn.
    rewrite call_more.lock_upgrade_runs, HW, HU. guard_cbn.
    rewrite invoke_again. guard_cbn. unfold scoped_upgrade_entry.
    rewrite call_facts.upgrade_to_unique_runs, (READERS_lor_UPGRADE s Hs).
    destruct (Z.eqb_spec (READERS s) 0) as [E | _]; [contradiction | reflexivity].
Qed.

Lemma scoped_upgrade_in_scope_runs_witness :
  exists ns',
    scoped_upgrade_in_scope 3
      {| heap := {[ 3%nat := mk 0 false [] ]}; called := [] |}
    = Done tt
        {| heap := <[3%nat := mk 0 false ns']> {[ 3%nat := mk 0 false [] ]};
           called := ((([] ++ [(3%nat, Lock_upgrade)])
                       ++ [(3%nat, Scoped_upgrade_entry)])
                      ++ [(3%nat, Scoped_upgrade_exit)])
                     ++ [(3%nat, Unlock_upgrade)] |}.
Proof.
  refine (proj1 (scoped_upgrade_in_scope_runs 3
           {| heap := {[ 3%nat := mk 0 false [] ]}; called := [] |} 0 [] _ _ _ _) _);
    [ apply lookup_singleton_eq
    | vm_compute; split; [discriminate | reflexivity]
    | reflexivity .. ].
Defined.

(** X20.  Move assignment (lines 117-125, defaulted in the guards at lines
    149, 171, 193) overwrites the pointer without releasing: when a
    guard that owns the mutex at [p] is assigned from a guard on another
    mutex [q] and both are then destroyed, the only call made is the one
    release on [q]; the mutex at [p] is never released and is left
    exactly as it was. *)
Theorem move_assign_drops_the_held_lock :
  forall (this other : lock_guard_base) (f : method) (w : world)
         (p q : nat) (m : upgrade_mutex.t),
    p_mutex_ this = Some p -> p_mutex_ other = Some q -> p <> q ->
    heap w !! q = Some m ->
    is_release f = true ->
    exists w',
      and_then (invoke_if_owned (snd (move_assign this other)) f w)
        (fun _ => invoke_if_owned (fst (move_assign this other)) f)
      = Done tt w'
      /\ called w' = called w ++ [(q, f)]
      /\ heap w' !! p = heap w !! p.
Proof.
  intros this other f w p q m Hp Hq Hpq Hm Hf.
  destruct (release_returns f m Hf) as [m' Hb].
  guard_cbn. rewrite Hq. guard_cbn. rewrite (invoke_at _ _ _ _ Hm), Hb.
  eexists. split; [reflexivity|]. cbn [called heap]. split; [reflexivity|].
  apply lookup_insert_ne. congruence.
Qed.

Lemma move_assign_drops_the_held_lock_witness :
  exists w',
    and_then
      (invoke_if_owned (snd (move_assign (ref_ctor 1) (ref_ctor 2))) Unlock
         {| heap := <[2%nat := mk WRITE_LOCKED_FLAG false []]>
                      {[ 1%nat := mk WRITE_LOCKED_FLAG false [] ]};
            called := [] |})
      (fun _ => invoke_if_owned (fst (move_assign (ref_ctor 1) (ref_ctor 2))) Unlock)
    = Done tt w'
    /\ called w' = [(2%nat, Unlock)]
    /\ heap w' !! 1%nat = Some (mk WRITE_LOCKED_FLAG false []).
Proof.
  destruct (move_assign_drops_the_held_lock (ref_ctor 1) (ref_ctor 2) Unlock
              {| heap := <[2%nat := mk WRITE_LOCKED_FLAG false []]>
                           {[ 1%nat := mk WRITE_LOCKED_FLAG false [] ]};
                 called := [] |}
              1 2 (mk WRITE_LOCKED_FLAG false []))
    as (w' & H1 & H2 & H3);
    [ reflexivity | reflexivity | discriminate | apply lookup_insert_eq | reflexivity | ].
  exists w'. split; [exact H1|]. split; [exact H2|].
  rewrite H3. cbn [heap]. rewrite lookup_insert_ne by discriminate.
  apply lookup_singleton_eq.
Defined.

End guard_more.
